(** * PoWERC20Miner: the proof-of-work search of [main.go]

    A shallow embedding of the miner's target computation, candidate
    evaluation, worker loop, coordinator and hash-rate aggregator, and the
    properties of them that the design document states.

    Conventions.
    - [*big.Int] values are [Z]; Go's [uint] and [int] are 64 bits wide and
      their wrap-around is written out ([wrap_uint], [wrap_int]).
    - byte slices are [list byte]; [common.Hash] and [common.Address] are
      records carrying the array length of the Go types ([32]byte, [20]byte).
    - goroutines are program counters; the scheduler is the choice of the
      next [event]; unbuffered channels are rendezvous between the sender's
      program counter and the receiver's. *)

From Stdlib Require Import ZArith List Lia Bool Floats.
From Stdlib Require Import Strings.Byte Strings.String.
From stdpp Require Import base tactics option list.
Import ListNotations.

#[local] Open Scope Z_scope.

(** ** Bytes *)

Definition Z_of_byte (b : byte) : Z := Z.of_N (Byte.to_N b).

Definition byte_of_Z (z : Z) : byte :=
  match Byte.of_N (Z.to_N (z mod 256)) with
  | Some b => b
  | None => x00
  end.

(** ** Machine integers of the Go runtime (64-bit platform) *)

Definition wrap_uint (x : Z) : Z := x mod 2 ^ 64.
Definition wrap_int (x : Z) : Z := (x + 2 ^ 63) mod 2 ^ 64 - 2 ^ 63.

(** ** math/big: the operations the miner calls *)

Module BigInt.

Definition NewInt (x : Z) : Z := x.

(** [z.Lsh(x, n)]: [x << n], [n] a [uint]. *)
Definition Lsh (x : Z) (n : Z) : Z := Z.shiftl x n.

(** [x.Cmp(y)]: -1, 0 or +1. *)
Definition Cmp (x y : Z) : Z :=
  match x ?= y with
  | Lt => -1
  | Eq => 0
  | Gt => 1
  end.

Definition Sign (x : Z) : Z := Z.sgn x.

(** [x.Uint64()]: the low 64 bits of the magnitude. *)
Definition Uint64 (x : Z) : Z := Z.abs x mod 2 ^ 64.

(** [x.BitLen()]: length of the magnitude in bits, 0 for 0. *)
Definition BitLen (x : Z) : Z :=
  if Z.abs x =? 0 then 0 else Z.log2 (Z.abs x) + 1.

(** The [n] low-order bytes of [x], most significant first. *)
Fixpoint be_bytes (n : nat) (x : Z) : list byte :=
  match n with
  | O => []
  | S k => be_bytes k (x / 256) ++ [byte_of_Z (x mod 256)]
  end.

(** [x.Bytes()]: the magnitude as a big-endian slice without leading
    zero bytes (empty for 0). *)
Definition Bytes (x : Z) : list byte :=
  be_bytes (Z.to_nat ((BitLen x + 7) / 8)) (Z.abs x).

(** [z.SetBytes(buf)]: [buf] read as a big-endian unsigned integer. *)
Definition SetBytes (buf : list byte) : Z :=
  fold_left (fun acc b => acc * 256 + Z_of_byte b) buf 0.

End BigInt.

(** ** go-ethereum/common *)

Module Common.

Definition HashLength : nat := 32.
Definition AddressLength : nat := 20.

Record Hash := mkHash {
  hash_bytes : list byte;
  hash_len : length hash_bytes = HashLength
}.

Record Address := mkAddress {
  address_bytes : list byte;
  address_len : length address_bytes = AddressLength
}.

(** [LeftPadBytes(slice, l)]: returns [slice] itself when it already has
    [l] bytes or more, otherwise a fresh zeroed slice of length [l] with
    [slice] copied to its end. *)
Definition LeftPadBytes (slice : list byte) (l : nat) : list byte :=
  if (l <=? length slice)%nat then slice
  else repeat x00 (l - length slice) ++ slice.

(** [h.Big()] is [new(big.Int).SetBytes(h[:])]. *)
Definition Hash_Big (h : Hash) : Z := BigInt.SetBytes (hash_bytes h).

(** [a.Bytes()] is [a[:]]. *)
Definition Address_Bytes (a : Address) : list byte := address_bytes a.

End Common.

(** ** Target (main.go, lines 136-137) *)

(** [difficultyUint := uint(difficulty.Uint64())] *)
Definition difficultyUint (difficulty : Z) : Z :=
  wrap_uint (BigInt.Uint64 difficulty).

(** [target := new(big.Int).Lsh(big.NewInt(1), 256-difficultyUint)], the
    target of [main] (the design document's ComputeTarget); the subtraction
    is a [uint] subtraction. Numbers are unbounded here: the memory a huge
    shift would need is not modelled. *)
Definition main_target (difficulty : Z) : Z :=
  BigInt.Lsh (BigInt.NewInt 1) (wrap_uint (256 - difficultyUint difficulty)).

(** ** crypto/rand and io: drawing a uniform integer below a bound *)

Definition error := string.

Module Rand.

(** The state of an [io.Reader]: the bytes it will still deliver, and the
    error it reports once they are used up. For [rand.Reader] the bytes
    are the entropy the operating system hands out. *)
Record Reader := mkReader {
  avail : list byte;
  fail : error
}.

(** The texts of [io.EOF] and [io.ErrUnexpectedEOF]. *)
Definition EOF : error := "EOF"%string.
Definition ErrUnexpectedEOF : error := "unexpected EOF"%string.

(** The error of an [io.ReadFull] that cannot fill its buffer: the
    reader's own error, except that [io.EOF] after some bytes were read
    becomes [io.ErrUnexpectedEOF]. *)
Definition short_read (r : Reader) : error :=
  if String.eqb (fail r) EOF && negb (length (avail r) =? 0)%nat
  then ErrUnexpectedEOF
  else fail r.

(** [io.ReadFull(r, buf)] with [len(buf) = k]. *)
Definition ReadFull (r : Reader) (k : nat) : error + (list byte * Reader) :=
  if (k <=? length (avail r))%nat
  then inr (firstn k (avail r), mkReader (skipn k (avail r)) (fail r))
  else inl (short_read r).

Inductive result :=
| Panic
| Err (e : error)
| Ok (n : Z) (rest : Reader).

(** [bytes[0] &= uint8(int(1<<b) - 1)] *)
Definition mask_first (b : Z) (bytes : list byte) : list byte :=
  match bytes with
  | [] => []
  | x :: xs =>
      byte_of_Z (Z.land (Z_of_byte x) ((wrap_int (Z.shiftl 1 b) - 1) mod 256)) :: xs
  end.

(** The rejection loop of [rand.Int]; every turn reads [k] fresh bytes, so
    [fuel] above the number of available bytes is never used up
    ([Int_loop_fuel] below). *)
Fixpoint Int_loop (fuel : nat) (r : Reader) (k : nat) (b max : Z) : result :=
  match fuel with
  | O => Err (fail r)
  | S fuel' =>
      match ReadFull r k with
      | inl e => Err e
      | inr (bytes, r') =>
          let n := BigInt.SetBytes (mask_first b bytes) in
          if BigInt.Cmp n max <? 0 then Ok n r'
          else Int_loop fuel' r' k b max
      end
  end.

(** [rand.Int(rand, max)] *)
Definition Int (r : Reader) (max : Z) : result :=
  if BigInt.Sign max <=? 0 then Panic
  else
    let n := max - 1 in
    let bitLen := BigInt.BitLen n in
    if bitLen =? 0 then Ok n r
    else
      let k := (bitLen + 7) / 8 in
      let b := if bitLen mod 8 =? 0 then 8 else bitLen mod 8 in
      Int_loop (S (length (avail r))) r (Z.to_nat k) b max.

End Rand.

(** [fmt.Errorf("failed to generate random nonce: %v", err)] *)
Definition Errorf_nonce (err : error) : error :=
  ("failed to generate random nonce: " ++ err)%string.

(** ** time: durations are nanosecond counts *)

Definition Millisecond : Z := 1000000.
Definition Second : Z := 1000 * Millisecond.

(** [time.NewTicker(1 * time.Second)] *)
Definition tickerInterval : Z := 1 * Second.

(** ** The aggregator goroutine (main.go, lines 151-163) *)

(** [float64(x)] for an [int]: the nearest binary64 value, ties to even. *)
Definition float64_of_int (x : Z) : float :=
  SF2Prim (binary_normalize prec emax x 0 false).

(** [hashesPerSecond := float64(totalHashCount) / 1000.0] *)
Definition hashesPerSecond (totalHashCount : Z) : float :=
  (float64_of_int totalHashCount / 1000)%float.

Record aggregator := mkAggregator {
  totalHashCount : Z;
  emitted : list float      (* the rates written to the console so far *)
}.

Inductive agg_msg :=
| AggTick                   (* [case <-ticker.C] *)
| AggCount (count : Z).     (* [case count := <-hashCountChan] *)

Definition agg_step (a : aggregator) (m : agg_msg) : aggregator :=
  match m with
  | AggTick =>
      {| totalHashCount := 0;
         emitted := emitted a ++ [hashesPerSecond (totalHashCount a)] |}
  | AggCount count =>
      {| totalHashCount := wrap_int (totalHashCount a + count);
         emitted := emitted a |}
  end.

Definition agg_run (a : aggregator) (ms : list agg_msg) : aggregator :=
  fold_left agg_step ms a.

Definition sumZ (l : list Z) : Z := fold_right Z.add 0 l.

(** ** The worker goroutine (main.go, lines 42-72) *)

Inductive deferred_call := DeferWgDone.

Inductive wpc :=
| WEntry                      (* line 43, before [defer wg.Done()] *)
| WSelect                     (* line 49, at the [select] *)
| WDraw                       (* line 53, [default] taken, before [rand.Int] *)
| WSendErr (e : error)        (* line 55, at [errorChan <- ...] *)
| WSendResult (nonce : Z)     (* line 65, at [resultChan <- nonce] *)
| WSendCount                  (* line 68, at [hashCountChan <- 1] *)
| WReturn                     (* a [return] was executed; deferred calls run *)
| WExited.                    (* the goroutine is gone *)

Record worker := mkWorker {
  pc : wpc;
  deferred : list deferred_call
}.

(** What a worker does in one step, as the rest of the program sees it. *)
Inductive wlabel :=
| LDefer                      (* [defer wg.Done()] *)
| LCtxDone (closed : bool)    (* the [select] polls [ctx.Done()] *)
| LDraw (r : Rand.Reader)     (* [rand.Int] on the reader in state [r] *)
| LSendErr (e : error)        (* the send on [errorChan] completes *)
| LSendResult (nonce : Z)     (* the send on [resultChan] completes *)
| LSendCount (count : Z)      (* the send on [hashCountChan] completes *)
| LWgDone                     (* the deferred [wg.Done()] runs *)
| LExit.

Definition goto (w : worker) (p : wpc) : worker :=
  {| pc := p; deferred := deferred w |}.

Inductive SearchResult :=
| Found (nonce : Z)
| Failed (e : error).

(** ** The coordinator: main.go from line 165 on *)

Inductive cpc :=
| CSpawn (i : Z)              (* line 166, loop test with counter [i] *)
| CSelect                     (* line 171 *)
| CResTickerStop (nonce : Z)  (* line 173 *)
| CResCancel (nonce : Z)      (* line 174 *)
| CResWait (nonce : Z)        (* line 175 *)
| CFound (nonce : Z)          (* line 176: the nonce goes to the submitter *)
| CErrCancel (e : error)      (* line 189 *)
| CErrWait (e : error)        (* line 190 *)
| CFatal (e : error).         (* line 191: [logger.Fatalf], the process exits *)

Record system := mkSystem {
  ctx_done : bool;            (* [cancel()] was called: [ctx.Done()] is closed *)
  wg : Z;                     (* counter of the [sync.WaitGroup] *)
  workers : list worker;      (* the goroutines started at line 168, in order *)
  coord : cpc;
  ticker_on : bool;           (* [ticker.Stop()] not called yet *)
  tick_pending : bool;        (* a tick sits in the one-slot buffer of [ticker.C] *)
  agg : aggregator
}.

Inductive event :=
| EvMain                          (* the main goroutine runs its next statement *)
| EvWorker (i : nat) (l : wlabel) (* worker [i] takes the step [l] *)
| EvTimer                         (* the runtime timer of the ticker fires *)
| EvAggTick.                      (* the aggregator receives from [ticker.C] *)

Record config := mkConfig {
  cfg_challenge : Z;              (* [contract.Challenge], a uint256 *)
  cfg_difficulty : Z;             (* [contract.Difficulty], a uint256 *)
  cfg_from : Common.Address;      (* [auth.From] *)
  cfg_workerCount : Z             (* the [-workerCount] flag, an [int] *)
}.

(** The outcome the coordinator has taken from the channels, if any. *)
Definition outcome (c : cpc) : option SearchResult :=
  match c with
  | CSpawn _ | CSelect => None
  | CResTickerStop n | CResCancel n | CResWait n | CFound n => Some (Found n)
  | CErrCancel e | CErrWait e | CFatal e => Some (Failed e)
  end.

(** The outcome handed on once the round is over (the wait has returned). *)
Definition delivered (c : cpc) : option SearchResult :=
  match c with
  | CFound n => Some (Found n)
  | CFatal e => Some (Failed e)
  | _ => None
  end.

(** The process runs until [logger.Fatalf] exits it. *)
Definition alive (s : system) : bool :=
  match coord s with
  | CFatal _ => false
  | _ => true
  end.

(** A worker still owes its [wg.Done()]: [wg.Add(1)] was called for it and
    the deferred call has not run. *)
Definition owes (w : worker) : Z :=
  match pc w with
  | WEntry => 1
  | _ => Z.of_nat (length (deferred w))
  end.

Definition owed (ws : list worker) : Z := sumZ (map owes ws).

(** The messages taken from [resultChan] and [errorChan] in a run. *)
Definition terminal_msg (ev : event) : option SearchResult :=
  match ev with
  | EvWorker _ (LSendResult n) => Some (Found n)
  | EvWorker _ (LSendErr e) => Some (Failed e)
  | _ => None
  end.

Definition consumed (evs : list event) : list SearchResult :=
  omap terminal_msg evs.

Definition is_count (ev : event) : bool :=
  match ev with
  | EvWorker _ (LSendCount _) => true
  | _ => false
  end.

(** The steps of a worker that has executed a [return]. *)
Definition unwinding (l : wlabel) : Prop := l = LWgDone \/ l = LExit.

(** The deferred calls a worker holds at each program point. *)
Definition worker_wf (w : worker) : Prop :=
  match pc w with
  | WEntry | WExited => deferred w = []
  | WReturn => deferred w = [DeferWgDone] \/ deferred w = []
  | WSelect | WDraw | WSendErr _ | WSendResult _ | WSendCount =>
      deferred w = [DeferWgDone]
  end.

(** A worker that has executed a [return] and run its deferred call. *)
Definition returned (w : worker) : Prop :=
  (pc w = WReturn \/ pc w = WExited) /\ deferred w = [].

Record round_inv (s : system) : Prop := mkRoundInv {
  inv_wf : Forall worker_wf (workers s);
  inv_wg : wg s = owed (workers s);
  inv_over : delivered (coord s) <> None -> wg s = 0
}.

Section Miner.

(** [crypto.Keccak256Hash], the hash function of go-ethereum. *)
Variable Keccak256Hash : list byte -> Common.Hash.

(** Lines 59-62: [data], the bytes that are hashed. *)
Definition mineWorker_data (challenge : Z) (fromAddress : Common.Address)
    (nonce : Z) : list byte :=
  let noncePadded := Common.LeftPadBytes (BigInt.Bytes nonce) 32 in
  let challengePadded := Common.LeftPadBytes (BigInt.Bytes challenge) 32 in
  let addressBytes := Common.Address_Bytes fromAddress in
  challengePadded ++ (addressBytes ++ noncePadded).

(** Line 63: [hash := crypto.Keccak256Hash(data)]. *)
Definition mineWorker_hash (challenge : Z) (fromAddress : Common.Address)
    (nonce : Z) : Common.Hash :=
  Keccak256Hash (mineWorker_data challenge fromAddress nonce).

(** Line 64: the test [hash.Big().Cmp(target) == -1]. *)
Definition mineWorker_accepts (challenge : Z) (fromAddress : Common.Address)
    (target nonce : Z) : bool :=
  BigInt.Cmp (Common.Hash_Big (mineWorker_hash challenge fromAddress nonce))
             target =? -1.

Section Worker.

Variables (challenge : Z) (fromAddress : Common.Address) (target : Z).

Definition mineWorker_step (w : worker) (l : wlabel) : option worker :=
  match pc w, l with
  | WEntry, LDefer =>
      Some {| pc := WSelect; deferred := DeferWgDone :: deferred w |}
  | WSelect, LCtxDone true => Some (goto w WReturn)
  | WSelect, LCtxDone false => Some (goto w WDraw)
  | WDraw, LDraw r =>
      match Rand.Int r (BigInt.Lsh (BigInt.NewInt 1) 256) with
      | Rand.Panic => None
      | Rand.Err err => Some (goto w (WSendErr (Errorf_nonce err)))
      | Rand.Ok nonce _ =>
          if mineWorker_accepts challenge fromAddress target nonce
          then Some (goto w (WSendResult nonce))
          else Some (goto w WSendCount)
      end
  | WSendErr e, LSendErr e' =>
      if String.eqb e e' then Some (goto w WReturn) else None
  | WSendResult nonce, LSendResult nonce' =>
      if nonce =? nonce' then Some (goto w WReturn) else None
  | WSendCount, LSendCount count =>
      if count =? 1 then Some (goto w WSelect) else None
  | WReturn, LWgDone =>
      match deferred w with
      | DeferWgDone :: ds => Some {| pc := WReturn; deferred := ds |}
      | [] => None
      end
  | WReturn, LExit =>
      match deferred w with
      | [] => Some (goto w WExited)
      | _ :: _ => None
      end
  | _, _ => None
  end.

(** A worker on its own: the steps [ls] in order. *)
Fixpoint mineWorker_run (w : worker) (ls : list wlabel) : option worker :=
  match ls with
  | [] => Some w
  | l :: ls' =>
      match mineWorker_step w l with
      | Some w' => mineWorker_run w' ls'
      | None => None
      end
  end.

End Worker.

Definition new_worker : worker := {| pc := WEntry; deferred := [] |}.

Section Round.

Variable cfg : config.

Definition round_target : Z := main_target (cfg_difficulty cfg).

Definition worker_step : worker -> wlabel -> option worker :=
  mineWorker_step (cfg_challenge cfg) (cfg_from cfg) round_target.

(** The program state when the main goroutine reaches line 165. *)
Definition init : system :=
  {| ctx_done := false; wg := 0; workers := []; coord := CSpawn 0;
     ticker_on := true; tick_pending := false;
     agg := {| totalHashCount := 0; emitted := [] |} |}.

Definition set_coord (s : system) (c : cpc) : system :=
  {| ctx_done := ctx_done s; wg := wg s; workers := workers s; coord := c;
     ticker_on := ticker_on s; tick_pending := tick_pending s; agg := agg s |}.

Definition set_worker (s : system) (i : nat) (w : worker) : system :=
  {| ctx_done := ctx_done s; wg := wg s; workers := <[i := w]> (workers s);
     coord := coord s; ticker_on := ticker_on s;
     tick_pending := tick_pending s; agg := agg s |}.

(** Lines 165-192, one statement of the main goroutine. The receives of
    the [select] at line 171 are taken together with the matching send,
    in [worker_event]. *)
Definition main_step (s : system) : option system :=
  match coord s with
  | CSpawn i =>
      if i <? cfg_workerCount cfg
      then Some {| ctx_done := ctx_done s; wg := wg s + 1;
                   workers := workers s ++ [new_worker];
                   coord := CSpawn (wrap_int (i + 1));
                   ticker_on := ticker_on s;
                   tick_pending := tick_pending s; agg := agg s |}
      else Some (set_coord s CSelect)
  | CSelect => None
  | CResTickerStop n =>
      Some {| ctx_done := ctx_done s; wg := wg s; workers := workers s;
              coord := CResCancel n; ticker_on := false;
              tick_pending := tick_pending s; agg := agg s |}
  | CResCancel n =>
      Some {| ctx_done := true; wg := wg s; workers := workers s;
              coord := CResWait n; ticker_on := ticker_on s;
              tick_pending := tick_pending s; agg := agg s |}
  | CResWait n => if wg s =? 0 then Some (set_coord s (CFound n)) else None
  | CFound _ => None
  | CErrCancel e =>
      Some {| ctx_done := true; wg := wg s; workers := workers s;
              coord := CErrWait e; ticker_on := ticker_on s;
              tick_pending := tick_pending s; agg := agg s |}
  | CErrWait e => if wg s =? 0 then Some (set_coord s (CFatal e)) else None
  | CFatal _ => None
  end.

(** Worker [i] takes step [l]; sends complete only against a receiver
    that is at its receive. *)
Definition worker_event (s : system) (i : nat) (l : wlabel) : option system :=
  match workers s !! i with
  | None => None
  | Some w =>
      match worker_step w l with
      | None => None
      | Some w' =>
          let s' := set_worker s i w' in
          match l with
          | LDefer | LDraw _ | LExit => Some s'
          | LCtxDone closed =>
              if Bool.eqb closed (ctx_done s) then Some s' else None
          | LSendErr e =>
              match coord s with
              | CSelect => Some (set_coord s' (CErrCancel e))
              | _ => None
              end
          | LSendResult nonce =>
              match coord s with
              | CSelect => Some (set_coord s' (CResTickerStop nonce))
              | _ => None
              end
          | LSendCount count =>
              Some {| ctx_done := ctx_done s'; wg := wg s';
                      workers := workers s'; coord := coord s';
                      ticker_on := ticker_on s';
                      tick_pending := tick_pending s';
                      agg := agg_step (agg s') (AggCount count) |}
          | LWgDone =>
              Some {| ctx_done := ctx_done s'; wg := wg s' - 1;
                      workers := workers s'; coord := coord s';
                      ticker_on := ticker_on s';
                      tick_pending := tick_pending s'; agg := agg s' |}
          end
      end
  end.

Definition step (s : system) (ev : event) : option system :=
  if alive s then
    match ev with
    | EvMain => main_step s
    | EvWorker i l => worker_event s i l
    | EvTimer =>
        if ticker_on s
        then Some {| ctx_done := ctx_done s; wg := wg s;
                     workers := workers s; coord := coord s;
                     ticker_on := ticker_on s; tick_pending := true;
                     agg := agg s |}
        else None
    | EvAggTick =>
        if tick_pending s
        then Some {| ctx_done := ctx_done s; wg := wg s;
                     workers := workers s; coord := coord s;
                     ticker_on := ticker_on s; tick_pending := false;
                     agg := agg_step (agg s) AggTick |}
        else None
    end
  else None.

Fixpoint run (s : system) (evs : list event) : option system :=
  match evs with
  | [] => Some s
  | ev :: evs' =>
      match step s ev with
      | Some s' => run s' evs'
      | None => None
      end
  end.

Definition reachable (s : system) : Prop :=
  exists evs, run init evs = Some s.

End Round.

End Miner.

(** ** The byte layout as the design document words it

    Section 3 of the design document: the digest is the hash of the
    concatenation, in this order, of the challenge as a 32-byte big-endian
    number, the raw identity bytes, and the nonce as a 32-byte big-endian
    number. *)

Definition be32 (x : Z) : list byte := BigInt.be_bytes 32 x.

Definition spec_preimage (challenge : Z) (identity : list byte) (nonce : Z)
    : list byte :=
  be32 challenge ++ identity ++ be32 nonce.

(** ** A stand-in hash for running the model

    [tail_hash] returns the last 32 bytes of its input; on the miner's data
    that is the padded nonce, so every digest value can be produced. *)

Definition tail_hash (data : list byte) : Common.Hash :=
  Common.mkHash
    (map (fun i => nth (length data - 32 + i)%nat data x00) (seq 0 32))
    (eq_trans (length_map _ _) (length_seq 32 0)).

Definition zero_address : Common.Address :=
  Common.mkAddress (repeat x00 20) (repeat_length x00 20).

(** A reader that delivers the 32-byte big-endian encoding of [n], then fails. *)
Definition reader_of (n : Z) : Rand.Reader :=
  Rand.mkReader (BigInt.be_bytes 32 n) "EOF"%string.

Definition broken_reader : Rand.Reader := Rand.mkReader [] "entropy source closed"%string.

(** ** Scenarios *)

(** Two workers, difficulty 0: both find a nonce at their first attempt;
    the coordinator takes the first one, stops the ticker, cancels and
    waits; the first worker unwinds and exits. *)
Definition two_finders : list event :=
  [EvMain; EvMain; EvMain;
   EvWorker 0 LDefer; EvWorker 0 (LCtxDone false);
   EvWorker 0 (LDraw (reader_of 5));
   EvWorker 1 LDefer; EvWorker 1 (LCtxDone false);
   EvWorker 1 (LDraw (reader_of 6));
   EvWorker 0 (LSendResult 5);
   EvMain; EvMain;
   EvWorker 0 LWgDone; EvWorker 0 LExit].

Definition second_finder_stuck : system :=
  {| ctx_done := true; wg := 1;
     workers := [mkWorker WExited []; mkWorker (WSendResult 6) [DeferWgDone]];
     coord := CResWait 5; ticker_on := false; tick_pending := false;
     agg := mkAggregator 0 [] |}.





(** An ordinary configuration: difficulty 252, hence target 16. *)
Definition cfg_252 : config := mkConfig 7 252 zero_address 2.


(** Two workers at difficulty 252: worker 0 misses with 500, reports the
    attempt, finds 5 and delivers it; worker 1 observes the cancellation at
    its [select]; the wait returns. *)
Definition miss_then_find : list event :=
  [EvMain; EvMain; EvMain;
   EvWorker 0 LDefer; EvWorker 1 LDefer;
   EvWorker 0 (LCtxDone false); EvWorker 0 (LDraw (reader_of 500));
   EvWorker 0 (LSendCount 1);
   EvWorker 0 (LCtxDone false); EvWorker 0 (LDraw (reader_of 5));
   EvWorker 0 (LSendResult 5);
   EvMain; EvMain;
   EvWorker 1 (LCtxDone true);
   EvWorker 0 LWgDone; EvWorker 1 LWgDone;
   EvMain].

Definition miss_then_find_end : system :=
  {| ctx_done := true; wg := 0;
     workers := [mkWorker WReturn []; mkWorker WReturn []];
     coord := CFound 5; ticker_on := false; tick_pending := false;
     agg := mkAggregator 1 [] |}.


(** ** Counting what a worker does *)

Definition is_draw (l : wlabel) : bool :=
  match l with
  | LDraw _ => true
  | _ => false
  end.

Definition is_count_send (l : wlabel) : bool :=
  match l with
  | LSendCount _ => true
  | _ => false
  end.

Definition is_terminal_send (l : wlabel) : bool :=
  match l with
  | LSendErr _ | LSendResult _ => true
  | _ => false
  end.

Definition is_wg_done (l : wlabel) : bool :=
  match l with
  | LWgDone => true
  | _ => false
  end.

Definition tally (f : wlabel -> bool) (ls : list wlabel) : nat :=
  length (List.filter f ls).

(** The worker has drawn and is at the send that reports the attempt. *)
Definition at_send (w : worker) : nat :=
  match pc w with
  | WSendErr _ | WSendResult _ | WSendCount => 1
  | _ => 0
  end.

(** The worker has not executed a [return]. *)
Definition searching (w : worker) : Prop :=
  pc w <> WReturn /\ pc w <> WExited.

(** The worker is at a send on [resultChan] or [errorChan]. *)
Definition at_terminal_send (w : worker) : Prop :=
  match pc w with
  | WSendErr _ | WSendResult _ => True
  | _ => False
  end.

(** ** What a worker still does once the round is cancelled *)

Definition by_worker (i : nat) (f : wlabel -> bool) (ev : event) : bool :=
  match ev with
  | EvWorker j l => Nat.eqb i j && f l
  | _ => false
  end.

Definition events_of (i : nat) (f : wlabel -> bool) (evs : list event) : nat :=
  length (List.filter (by_worker i f) evs).

(** Draws and hash-count messages that a worker at this program point can
    still make when every poll of [ctx.Done()] finds it closed. *)
Definition draws_left (w : worker) : nat :=
  match pc w with
  | WDraw => 1
  | _ => 0
  end.

Definition counts_left (w : worker) : nat :=
  match pc w with
  | WDraw | WSendCount => 1
  | _ => 0
  end.

Definition left_at (b : worker -> nat) (ws : list worker) (i : nat) : nat :=
  match ws !! i with
  | Some w => b w
  | None => 0
  end.

(** ** What the aggregator sees of a run *)

Definition agg_view (ev : event) : option agg_msg :=
  match ev with
  | EvWorker _ (LSendCount count) => Some (AggCount count)
  | EvAggTick => Some AggTick
  | _ => None
  end.

(** The hash-count messages of a run, interval by interval: the numbers of
    messages between consecutive ticks, and the number since the last tick;
    [cur] is the number already received in the first interval. *)
Fixpoint intervals (evs : list event) (cur : nat) : list nat * nat :=
  match evs with
  | [] => ([], cur)
  | ev :: evs' =>
      match agg_view ev with
      | Some (AggCount _) => intervals evs' (S cur)
      | Some AggTick => (cur :: fst (intervals evs' 0), snd (intervals evs' 0))
      | None => intervals evs' cur
      end
  end.

(** ** Outcomes that the search justifies *)

Section Sound.

Variable Keccak256Hash : list byte -> Common.Hash.
Variable cfg : config.

(** A nonce in range whose digest is below the target of the round. *)
Definition sound_nonce (nonce : Z) : Prop :=
  0 <= nonce < 2 ^ 256 /\
  mineWorker_accepts Keccak256Hash (cfg_challenge cfg) (cfg_from cfg)
    (round_target cfg) nonce = true.

Definition sound_result (r : SearchResult) : Prop :=
  match r with
  | Found nonce => sound_nonce nonce
  | Failed e => exists err, e = Errorf_nonce err
  end.

Definition sound_worker (w : worker) : Prop :=
  match pc w with
  | WSendResult nonce => sound_nonce nonce
  | WSendErr e => exists err, e = Errorf_nonce err
  | _ => True
  end.

End Sound.

(** ** The rest of [main]: set-up (lines 89-134) and submission (176-193)

    The calls into go-ethereum are the program's outside world: [world]
    holds what each of them returns in this execution, and the program is a
    script that logs the calls it makes and stops at the first
    [logger.Fatalf]. Log lines and the banner are left out. *)

Inductive call :=
| CallDial                    (* line 90, [ethclient.Dial] *)
| CallHexToECDSA              (* line 95 *)
| CallNetworkID               (* line 100 *)
| CallNewTransactor           (* line 106 *)
| CallNewPoWERC20             (* line 112 *)
| CallName                    (* line 118 *)
| CallChallenge               (* line 124 *)
| CallDifficulty              (* line 130 *)
| CallMine (nonce : Z)        (* line 178, [contract.Mine(auth, nonce)] *)
| CallWaitMined.              (* line 182 *)

Record world := mkWorld {
  w_Dial : error + unit;
  w_HexToECDSA : error + unit;
  w_NetworkID : error + Z;
  w_NewTransactor : error + Common.Address;   (* [auth]; [auth.From] is used *)
  w_NewPoWERC20 : error + unit;
  w_Name : error + string;
  w_Challenge : error + Z;
  w_Difficulty : error + Z;
  w_Mine : Z -> error + unit;
  w_WaitMined : error + unit
}.

(** A script: the calls made, and a fatal message or a value. *)
Definition script (A : Type) : Type := list call * (string + A).

Definition ret {A} (a : A) : script A := ([], inr a).

Definition bind {A B} (m : script A) (k : A -> script B) : script B :=
  match m with
  | (log, inl msg) => (log, inl msg)
  | (log, inr a) => (log ++ fst (k a), snd (k a))
  end.

(** An outside call whose error is fatal: [logger.Fatalf(msg ++ "%v", err)]. *)
Definition fatal_on_error {A} (c : call) (res : error + A) (msg : string)
    : script A :=
  ([c], match res with
        | inl err => inl (msg ++ err)%string
        | inr a => inr a
        end).

Declare Scope script_scope.
Delimit Scope script_scope with script.

Notation "x <- m ;; k" := (bind m (fun x => k))
  (at level 100, m at next level, right associativity) : script_scope.

(** Lines 89-134, with the value of the [-workerCount] flag. *)
Definition main_setup (wo : world) (workerCount : Z) : script config :=
  (_ <- fatal_on_error CallDial (w_Dial wo)
         "Failed to connect to the Ethereum client: " ;;
  _ <- fatal_on_error CallHexToECDSA (w_HexToECDSA wo)
         "Error in parsing private key: " ;;
  _ <- fatal_on_error CallNetworkID (w_NetworkID wo)
         "Failed to get chainID: " ;;
  from <- fatal_on_error CallNewTransactor (w_NewTransactor wo)
         "Failed to create transactor: " ;;
  _ <- fatal_on_error CallNewPoWERC20 (w_NewPoWERC20 wo)
         "Failed to instantiate a Token contract: " ;;
  _ <- fatal_on_error CallName (w_Name wo)
         "Failed to get contract name: " ;;
  challenge <- fatal_on_error CallChallenge (w_Challenge wo)
         "Failed to get challenge: " ;;
  difficulty <- fatal_on_error CallDifficulty (w_Difficulty wo)
         "Failed to get difficulty: " ;;
  ret (mkConfig challenge difficulty from workerCount))%script.

Definition setup_calls : list call :=
  [CallDial; CallHexToECDSA; CallNetworkID; CallNewTransactor;
   CallNewPoWERC20; CallName; CallChallenge; CallDifficulty].

(** Lines 176-193: what [main] does with the outcome of the [select] once
    [wg.Wait()] has returned. *)
Definition main_finish (wo : world) (r : SearchResult) : script unit :=
  match r with
  | Found nonce =>
      (_ <- fatal_on_error (CallMine nonce) (w_Mine wo nonce)
             "Failed to submit mine transaction: " ;;
       _ <- fatal_on_error CallWaitMined (w_WaitMined wo)
             "Failed to mine the transaction: " ;;
       ret tt)%script
  | Failed e =>
      ([], inl ("Mining operation failed due to an error: " ++ e)%string)
  end.

Definition failed {A} (res : error + A) : option error :=
  match res with
  | inl err => Some err
  | inr _ => None
  end.

(** The error the call [c] returns in the world [wo], if it fails there. *)
Definition call_error (wo : world) (c : call) : option error :=
  match c with
  | CallDial => failed (w_Dial wo)
  | CallHexToECDSA => failed (w_HexToECDSA wo)
  | CallNetworkID => failed (w_NetworkID wo)
  | CallNewTransactor => failed (w_NewTransactor wo)
  | CallNewPoWERC20 => failed (w_NewPoWERC20 wo)
  | CallName => failed (w_Name wo)
  | CallChallenge => failed (w_Challenge wo)
  | CallDifficulty => failed (w_Difficulty wo)
  | CallMine nonce => failed (w_Mine wo nonce)
  | CallWaitMined => failed (w_WaitMined wo)
  end.

(** The text that [main] puts before the error of the call when it ends
    the program (lines 92, 97, 102, 108, 114, 120, 126, 132, 180, 184). *)
Definition fatal_text (c : call) : string :=
  match c with
  | CallDial => "Failed to connect to the Ethereum client: "
  | CallHexToECDSA => "Error in parsing private key: "
  | CallNetworkID => "Failed to get chainID: "
  | CallNewTransactor => "Failed to create transactor: "
  | CallNewPoWERC20 => "Failed to instantiate a Token contract: "
  | CallName => "Failed to get contract name: "
  | CallChallenge => "Failed to get challenge: "
  | CallDifficulty => "Failed to get difficulty: "
  | CallMine _ => "Failed to submit mine transaction: "
  | CallWaitMined => "Failed to mine the transaction: "
  end.

(** A world whose node cannot be reached. *)
Definition no_node_world : world :=
  {| w_Dial := inl "connection refused"%string;
     w_HexToECDSA := inr tt; w_NetworkID := inr 1;
     w_NewTransactor := inr zero_address; w_NewPoWERC20 := inr tt;
     w_Name := inr "PoWERC20"%string; w_Challenge := inr 7;
     w_Difficulty := inr 252; w_Mine := fun _ => inr tt;
     w_WaitMined := inr tt |}.

Definition is_mine (c : call) : bool :=
  match c with
  | CallMine _ => true
  | _ => false
  end.

(** [main] under the schedule [evs] of the round: [None] when [evs] is not
    a schedule of the program or does not take the round to its end. *)
Definition main_program (Keccak256Hash : list byte -> Common.Hash)
    (wo : world) (workerCount : Z) (evs : list event)
    : option (script unit) :=
  match main_setup wo workerCount with
  | (log, inl msg) => Some (log, inl msg)
  | (log, inr cfg) =>
      match run Keccak256Hash cfg init evs with
      | Some s =>
          match delivered (coord s) with
          | Some r =>
              Some (log ++ fst (main_finish wo r), snd (main_finish wo r))
          | None => None
          end
      | None => None
      end
  end.

(** A world in which every call succeeds. *)
Definition fair_world : world :=
  {| w_Dial := inr tt; w_HexToECDSA := inr tt; w_NetworkID := inr 1;
     w_NewTransactor := inr zero_address; w_NewPoWERC20 := inr tt;
     w_Name := inr "PoWERC20"%string; w_Challenge := inr 7;
     w_Difficulty := inr 252; w_Mine := fun _ => inr tt;
     w_WaitMined := inr tt |}.

(** A world whose node answers but whose contract call for the difficulty
    fails. *)
Definition no_difficulty_world : world :=
  {| w_Dial := inr tt; w_HexToECDSA := inr tt; w_NetworkID := inr 1;
     w_NewTransactor := inr zero_address; w_NewPoWERC20 := inr tt;
     w_Name := inr "PoWERC20"%string; w_Challenge := inr 7;
     w_Difficulty := inl "execution reverted"%string;
     w_Mine := fun _ => inr tt; w_WaitMined := inr tt |}.

(** * Properties *)

Example target_0 : main_target 0 = 2 ^ 256.
Proof. reflexivity. Qed.

Example target_256 : main_target 256 = 1.
Proof. reflexivity. Qed.

Example target_12 : main_target 12 = 2 ^ 244.
Proof. reflexivity. Qed.

(** ** Bytes and big-endian encodings *)

Lemma Z_of_byte_range b : 0 <= Z_of_byte b < 256.
Proof.
  unfold Z_of_byte. pose proof (Byte.to_N_bounded b) as H. lia.
Qed.

Lemma Z_of_byte_of_Z z : Z_of_byte (byte_of_Z z) = z mod 256.
Proof.
  unfold Z_of_byte, byte_of_Z.
  pose proof (Z.mod_pos_bound z 256 ltac:(lia)) as Hm.
  destruct (Byte.of_N (Z.to_N (z mod 256))) as [b|] eqn:E.
  - apply Byte.to_of_N in E. rewrite E. lia.
  - apply Byte.of_N_None_iff in E. lia.
Qed.

Lemma byte_of_Z_of_byte b : byte_of_Z (Z_of_byte b) = b.
Proof.
  unfold byte_of_Z. rewrite Z.mod_small by apply Z_of_byte_range.
  unfold Z_of_byte. rewrite N2Z.id, Byte.of_to_N. reflexivity.
Qed.

Lemma byte_of_Z_0 : byte_of_Z 0 = x00.
Proof. reflexivity. Qed.

Module BigIntFacts.
Import BigInt.

Lemma SetBytes_snoc buf b :
  SetBytes (buf ++ [b]) = SetBytes buf * 256 + Z_of_byte b.
Proof. unfold SetBytes. rewrite fold_left_app. reflexivity. Qed.

Lemma SetBytes_range buf :
  0 <= SetBytes buf < 256 ^ Z.of_nat (length buf).
Proof.
  induction buf as [|b buf IH] using rev_ind.
  - cbn. lia.
  - rewrite SetBytes_snoc, length_app, Nat2Z.inj_add. cbn [length].
    rewrite Z.pow_add_r by lia.
    pose proof (Z_of_byte_range b). change (256 ^ Z.of_nat 1) with 256.
    set (P := 256 ^ Z.of_nat (length buf)) in *. lia.
Qed.

Lemma be_bytes_length n x : length (be_bytes n x) = n.
Proof.
  revert x. induction n as [|n IH]; intros x; cbn [be_bytes].
  - reflexivity.
  - rewrite length_app, IH. cbn. lia.
Qed.

(** Reading back the [n] low-order bytes gives the number modulo [256^n]. *)
Lemma SetBytes_be_bytes n x :
  SetBytes (be_bytes n x) = x mod 256 ^ Z.of_nat n.
Proof.
  revert x. induction n as [|n IH]; intros x.
  - cbn. rewrite Z.mod_1_r. reflexivity.
  - cbn [be_bytes]. rewrite SetBytes_snoc, IH, Z_of_byte_of_Z.
    rewrite Nat2Z.inj_succ, Z.pow_succ_r by lia.
    assert (0 < 256 ^ Z.of_nat n) by (apply Z.pow_pos_nonneg; lia).
    rewrite (Z.rem_mul_r x 256 (256 ^ Z.of_nat n)) by lia.
    rewrite Z.mod_mod by lia. ring.
Qed.

Lemma be_bytes_zero n : be_bytes n 0 = repeat x00 n.
Proof.
  induction n as [|n IH]; [reflexivity|].
  cbn [be_bytes]. change (0 / 256) with 0. change (0 mod 256) with 0.
  rewrite IH, byte_of_Z_0. symmetry. apply repeat_cons.
Qed.

(** Extra high-order positions of a small number are zero bytes. *)
Lemma be_bytes_pad m k x :
  0 <= x < 256 ^ Z.of_nat k ->
  be_bytes (m + k) x = repeat x00 m ++ be_bytes k x.
Proof.
  revert x. induction k as [|k IH]; intros x Hx.
  - change (256 ^ Z.of_nat 0) with 1 in Hx.
    assert (x = 0) as -> by lia.
    rewrite Nat.add_0_r, be_bytes_zero. cbn. rewrite app_nil_r. reflexivity.
  - rewrite Nat.add_succ_r. cbn [be_bytes].
    rewrite IH, app_assoc; [reflexivity|].
    rewrite Nat2Z.inj_succ, Z.pow_succ_r in Hx by lia.
    split; [apply Z.div_pos; lia|].
    apply Z.div_lt_upper_bound; lia.
Qed.

Lemma BitLen_nonneg x : 0 <= BitLen x.
Proof.
  unfold BitLen. destruct (Z.abs x =? 0); [lia|].
  pose proof (Z.log2_nonneg (Z.abs x)). lia.
Qed.

Lemma BitLen_bound x n : 0 <= n -> 0 <= x < 2 ^ n -> BitLen x <= n.
Proof.
  intros Hn Hx. unfold BitLen. rewrite Z.abs_eq by lia.
  destruct (x =? 0) eqn:E; [lia|].
  apply Z.eqb_neq in E.
  assert (Z.log2 x < n) by (apply Z.log2_lt_pow2; lia). lia.
Qed.

Lemma lt_pow2_BitLen x : 0 <= x -> x < 2 ^ BitLen x.
Proof.
  intros Hx. unfold BitLen. rewrite Z.abs_eq by lia.
  destruct (x =? 0) eqn:E.
  - apply Z.eqb_eq in E. subst. cbn. lia.
  - apply Z.eqb_neq in E.
    pose proof (Z.log2_spec x ltac:(lia)) as H.
    replace (Z.log2 x + 1) with (Z.succ (Z.log2 x)) by lia. lia.
Qed.

Lemma Bytes_length x :
  length (Bytes x) = Z.to_nat ((BitLen x + 7) / 8).
Proof. apply be_bytes_length. Qed.

(** The minimal encoding of a number below [256^l] has at most [l] bytes. *)
Lemma Bytes_length_le x l :
  0 <= x < 256 ^ Z.of_nat l -> (length (Bytes x) <= l)%nat.
Proof.
  intros Hx. rewrite Bytes_length.
  assert (BitLen x <= 8 * Z.of_nat l) as Hb.
  { apply BitLen_bound; [lia|].
    rewrite Z.pow_mul_r by lia. change (2 ^ 8) with 256. lia. }
  pose proof (BitLen_nonneg x).
  assert ((BitLen x + 7) / 8 <= Z.of_nat l).
  { apply Z.lt_succ_r. apply Z.div_lt_upper_bound; lia. }
  lia.
Qed.

Lemma lt_pow256_Bytes x :
  0 <= x -> x < 256 ^ Z.of_nat (length (Bytes x)).
Proof.
  intros Hx. rewrite Bytes_length.
  pose proof (BitLen_nonneg x) as Hb.
  pose proof (lt_pow2_BitLen x Hx) as Hlt.
  assert (0 <= (BitLen x + 7) / 8) by (apply Z.div_pos; lia).
  rewrite Z2Nat.id by lia.
  change 256 with (2 ^ 8). rewrite <- Z.pow_mul_r by lia.
  eapply Z.lt_le_trans; [exact Hlt|].
  apply Z.pow_le_mono_r; [lia|].
  pose proof (Z.mul_div_le (BitLen x + 7) 8 ltac:(lia)).
  pose proof (Z.mod_pos_bound (BitLen x + 7) 8 ltac:(lia)).
  pose proof (Z.div_mod (BitLen x + 7) 8 ltac:(lia)). lia.
Qed.

Lemma Bytes_be_bytes x : 0 <= x -> Bytes x = be_bytes (length (Bytes x)) x.
Proof.
  intros Hx. rewrite Bytes_length. unfold Bytes.
  rewrite Z.abs_eq by lia. reflexivity.
Qed.

Lemma SetBytes_Bytes x : 0 <= x -> SetBytes (Bytes x) = x.
Proof.
  intros Hx. rewrite (Bytes_be_bytes x Hx), SetBytes_be_bytes.
  apply Z.mod_small. split; [lia|]. apply lt_pow256_Bytes; lia.
Qed.

End BigIntFacts.

Module CommonFacts.
Import BigInt BigIntFacts Common.

Lemma LeftPadBytes_length slice l :
  (length slice <= l)%nat -> length (LeftPadBytes slice l) = l.
Proof.
  intros H. unfold LeftPadBytes.
  destruct (l <=? length slice)%nat eqn:E.
  - apply Nat.leb_le in E. lia.
  - rewrite length_app, repeat_length. lia.
Qed.

(** Padding the minimal encoding gives the fixed-width encoding. *)
Lemma LeftPadBytes_Bytes x l :
  0 <= x < 256 ^ Z.of_nat l ->
  LeftPadBytes (Bytes x) l = be_bytes l x.
Proof.
  intros Hx.
  pose proof (Bytes_length_le x l Hx) as Hlen.
  unfold LeftPadBytes.
  destruct (l <=? length (Bytes x))%nat eqn:E.
  - apply Nat.leb_le in E.
    assert (length (Bytes x) = l) as Hl by lia.
    rewrite (Bytes_be_bytes x) by lia. rewrite Hl. reflexivity.
  - rewrite (Bytes_be_bytes x) at 2 by lia.
    rewrite <- be_bytes_pad by (split; [lia | apply lt_pow256_Bytes; lia]).
    f_equal. lia.
Qed.

Lemma Hash_Big_range h : 0 <= Hash_Big h < 2 ^ 256.
Proof.
  unfold Hash_Big. pose proof (SetBytes_range (hash_bytes h)) as H.
  rewrite (hash_len h) in H. exact H.
Qed.

End CommonFacts.

(** ** Arithmetic of the target *)

Lemma difficultyUint_small d : 0 <= d < 2 ^ 64 -> difficultyUint d = d.
Proof.
  intros Hd. unfold difficultyUint, wrap_uint, BigInt.Uint64.
  rewrite Z.abs_eq by lia.
  rewrite Z.mod_mod by lia. apply Z.mod_small; lia.
Qed.

Lemma main_target_in_range d :
  0 <= d <= 256 -> main_target d = 2 ^ (256 - d).
Proof.
  intros Hd. unfold main_target, BigInt.Lsh, BigInt.NewInt.
  rewrite difficultyUint_small by lia.
  unfold wrap_uint. rewrite Z.mod_small by lia.
  rewrite Z.shiftl_mul_pow2 by lia. lia.
Qed.

(** C1. For every difficulty [d] in [0, 256] the target computed before the
    search starts is [2^(256-d)], and over that range the target does not
    increase when the difficulty does. *)
Theorem target_pow2_antitone :
  (forall d, 0 <= d <= 256 -> main_target d = 2 ^ (256 - d)) /\
  (forall d1 d2, 0 <= d1 <= 256 -> 0 <= d2 <= 256 -> d1 <= d2 ->
     main_target d2 <= main_target d1).
Proof.
  split.
  - exact main_target_in_range.
  - intros d1 d2 H1 H2 Hle.
    rewrite !main_target_in_range by lia.
    apply Z.pow_le_mono_r; lia.
Qed.

(** ** The random draw *)

Module RandFacts.
Import BigInt BigIntFacts Rand.

Lemma ReadFull_length r k bytes r' :
  ReadFull r k = inr (bytes, r') -> length bytes = k.
Proof.
  unfold ReadFull. destruct (k <=? length (avail r))%nat eqn:E; [|discriminate].
  intros [= <- <-]. apply Nat.leb_le in E. rewrite length_firstn. lia.
Qed.

Lemma ReadFull_consumes r k bytes r' :
  ReadFull r k = inr (bytes, r') ->
  (length (avail r') + k = length (avail r))%nat.
Proof.
  unfold ReadFull. destruct (k <=? length (avail r))%nat eqn:E; [|discriminate].
  intros [= <- <-]. apply Nat.leb_le in E. cbn. rewrite length_skipn. lia.
Qed.

(** The loop stops by itself: fuel beyond the available bytes is not used. *)
Lemma Int_loop_fuel fuel r k b max :
  (1 <= k)%nat -> (length (avail r) < fuel)%nat ->
  Int_loop fuel r k b max = Int_loop (S fuel) r k b max.
Proof.
  intros Hk. revert r. induction fuel as [|fuel IH]; intros r Hlen; [lia|].
  cbn [Int_loop].
  destruct (ReadFull r k) as [e|[bytes r']] eqn:E; [reflexivity|].
  destruct (Cmp _ max <? 0); [reflexivity|].
  apply ReadFull_consumes in E.
  rewrite IH by lia. reflexivity.
Qed.

(** With [b = 8] the mask is [0xff] and clears nothing. *)
Lemma mask_first_8 bytes : mask_first 8 bytes = bytes.
Proof.
  destruct bytes as [|x xs]; [reflexivity|]. cbn [mask_first].
  change ((wrap_int (Z.shiftl 1 8) - 1) mod 256) with (Z.ones 8).
  rewrite Z.land_ones by lia. change (2 ^ 8) with 256.
  rewrite Z.mod_small by apply Z_of_byte_range.
  rewrite byte_of_Z_of_byte. reflexivity.
Qed.

(** [rand.Int(rand.Reader, 1<<256)] reads 32 bytes once: it fails when the
    read fails and otherwise returns the bytes read as a number. *)
Lemma Int_two_pow_256 r :
  Int r (Lsh (NewInt 1) 256) =
  match ReadFull r 32 with
  | inl e => Err e
  | inr (bytes, r') => Ok (SetBytes bytes) r'
  end.
Proof.
  unfold Int.
  change (Sign (Lsh (NewInt 1) 256) <=? 0) with false.
  change (BitLen (Lsh (NewInt 1) 256 - 1)) with 256.
  change (256 =? 0) with false.
  change (256 mod 8 =? 0) with true.
  change (Z.to_nat ((256 + 7) / 8)) with 32%nat.
  cbv iota. cbn [Int_loop].
  destruct (ReadFull r 32) as [e|[bytes r']] eqn:E; [reflexivity|].
  rewrite mask_first_8.
  pose proof (SetBytes_range bytes) as Hr.
  rewrite (ReadFull_length _ _ _ _ E) in Hr.
  change (256 ^ Z.of_nat 32) with (Lsh (NewInt 1) 256) in Hr.
  assert ((Cmp (SetBytes bytes) (Lsh (NewInt 1) 256) <? 0) = true) as ->;
    [|reflexivity].
  unfold Cmp.
  destruct (Z.compare_spec (SetBytes bytes) (Lsh (NewInt 1) 256)); [lia|reflexivity|lia].
Qed.

Lemma Int_two_pow_256_range r nonce rest :
  Int r (Lsh (NewInt 1) 256) = Ok nonce rest -> 0 <= nonce < 2 ^ 256.
Proof.
  rewrite Int_two_pow_256.
  destruct (ReadFull r 32) as [e|[bytes r']] eqn:E; [discriminate|].
  intros [= <- <-].
  pose proof (SetBytes_range bytes) as Hr.
  rewrite (ReadFull_length _ _ _ _ E) in Hr. exact Hr.
Qed.

Lemma Int_two_pow_256_no_panic r : Int r (Lsh (NewInt 1) 256) <> Panic.
Proof.
  rewrite Int_two_pow_256. destruct (ReadFull r 32) as [e|[bytes r']]; discriminate.
Qed.

End RandFacts.

Example draw_5 :
  Rand.Int (reader_of 5) (BigInt.Lsh (BigInt.NewInt 1) 256)
  = Rand.Ok 5 (Rand.mkReader [] "EOF"%string).
Proof. vm_compute. reflexivity. Qed.

Example draw_fails :
  Rand.Int broken_reader (BigInt.Lsh (BigInt.NewInt 1) 256)
  = Rand.Err "entropy source closed"%string.
Proof. vm_compute. reflexivity. Qed.

(** C10. Every nonce a worker draws (line 53) lies in [0, 2^256): its
    minimal big-endian encoding has at most 32 bytes, and left-padding it to
    32 bytes only adds zero bytes in front, so the padded slice has exactly
    32 bytes and still reads back as the nonce. *)
Theorem nonce_fits_32_bytes r nonce rest :
  Rand.Int r (BigInt.Lsh (BigInt.NewInt 1) 256) = Rand.Ok nonce rest ->
  0 <= nonce < 2 ^ 256 /\
  (length (BigInt.Bytes nonce) <= 32)%nat /\
  Common.LeftPadBytes (BigInt.Bytes nonce) 32
    = repeat x00 (32 - length (BigInt.Bytes nonce)) ++ BigInt.Bytes nonce /\
  length (Common.LeftPadBytes (BigInt.Bytes nonce) 32) = 32%nat /\
  BigInt.SetBytes (Common.LeftPadBytes (BigInt.Bytes nonce) 32) = nonce.
Proof.
  intros Hdraw.
  pose proof (RandFacts.Int_two_pow_256_range _ _ _ Hdraw) as Hn.
  assert ((length (BigInt.Bytes nonce) <= 32)%nat) as Hlen
    by (apply BigIntFacts.Bytes_length_le; exact Hn).
  split; [exact Hn|]. split; [exact Hlen|]. split; [|split].
  - unfold Common.LeftPadBytes.
    destruct (32 <=? length (BigInt.Bytes nonce))%nat eqn:E; [|reflexivity].
    apply Nat.leb_le in E.
    replace (32 - length (BigInt.Bytes nonce))%nat with 0%nat by lia.
    reflexivity.
  - apply CommonFacts.LeftPadBytes_length. exact Hlen.
  - rewrite CommonFacts.LeftPadBytes_Bytes by exact Hn.
    rewrite BigIntFacts.SetBytes_be_bytes. apply Z.mod_small. exact Hn.
Qed.

Lemma nonce_fits_32_bytes_witness :
  Rand.Int (reader_of 5) (BigInt.Lsh (BigInt.NewInt 1) 256)
    = Rand.Ok 5 (Rand.mkReader [] "EOF"%string) /\
  BigInt.SetBytes (Common.LeftPadBytes (BigInt.Bytes 5) 32) = 5.
Proof.
  split.
  - vm_compute. reflexivity.
  - apply (nonce_fits_32_bytes (reader_of 5) 5 (Rand.mkReader [] "EOF"%string)).
    vm_compute. reflexivity.
Defined.

(** ** Candidate evaluation *)

Section CandidateFacts.

Variable Keccak256Hash : list byte -> Common.Hash.

Lemma be32_faithful x :
  0 <= x < 2 ^ 256 -> length (be32 x) = 32%nat /\ BigInt.SetBytes (be32 x) = x.
Proof.
  intros Hx. unfold be32. split.
  - apply BigIntFacts.be_bytes_length.
  - rewrite BigIntFacts.SetBytes_be_bytes. apply Z.mod_small. exact Hx.
Qed.

Lemma mineWorker_data_spec challenge fromAddress nonce :
  0 <= challenge < 2 ^ 256 -> 0 <= nonce < 2 ^ 256 ->
  mineWorker_data challenge fromAddress nonce
  = spec_preimage challenge (Common.Address_Bytes fromAddress) nonce.
Proof.
  intros Hc Hn. unfold mineWorker_data, spec_preimage, be32.
  rewrite !CommonFacts.LeftPadBytes_Bytes by assumption. reflexivity.
Qed.

Lemma Cmp_lt x y : (BigInt.Cmp x y =? -1) = true <-> x < y.
Proof.
  unfold BigInt.Cmp. destruct (Z.compare_spec x y); cbn; split; intros; try lia; try discriminate.
Qed.

(** C2. The digest of a candidate is the Keccak-256 hash of the challenge
    as 32 big-endian bytes, then the raw identity bytes, then the nonce as
    32 big-endian bytes; the candidate is accepted exactly when the digest,
    read as an unsigned integer, is strictly below the target. *)
Theorem evaluate_layout_and_threshold challenge fromAddress target nonce :
  0 <= challenge < 2 ^ 256 -> 0 <= nonce < 2 ^ 256 ->
  let digest := mineWorker_hash Keccak256Hash challenge fromAddress nonce in
  let accepted :=
    mineWorker_accepts Keccak256Hash challenge fromAddress target nonce in
  digest = Keccak256Hash
             (spec_preimage challenge (Common.Address_Bytes fromAddress) nonce) /\
  (length (be32 challenge) = 32%nat /\ BigInt.SetBytes (be32 challenge) = challenge) /\
  (length (be32 nonce) = 32%nat /\ BigInt.SetBytes (be32 nonce) = nonce) /\
  (accepted = true <-> Common.Hash_Big digest < target).
Proof.
  intros Hc Hn digest accepted. subst digest accepted.
  unfold mineWorker_accepts, mineWorker_hash.
  rewrite mineWorker_data_spec by assumption.
  split; [reflexivity|].
  split; [apply be32_faithful; exact Hc|].
  split; [apply be32_faithful; exact Hn|].
  apply Cmp_lt.
Qed.

End CandidateFacts.

Lemma evaluate_layout_and_threshold_witness :
  (0 <= 7 < 2 ^ 256) /\ (0 <= 99 < 2 ^ 256) /\
  (mineWorker_accepts tail_hash 7 zero_address 100 99 = true <->
   Common.Hash_Big (mineWorker_hash tail_hash 7 zero_address 99) < 100).
Proof.
  split; [lia|]. split; [lia|].
  apply (evaluate_layout_and_threshold tail_hash 7 zero_address 100 99); lia.
Defined.

(** ** One worker on its own *)

Section WorkerFacts.

Variable Keccak256Hash : list byte -> Common.Hash.
Variables (challenge : Z) (fromAddress : Common.Address) (target : Z).

#[local] Abbreviation wstep :=
  (mineWorker_step Keccak256Hash challenge fromAddress target).
#[local] Abbreviation wrun :=
  (mineWorker_run Keccak256Hash challenge fromAddress target).
#[local] Abbreviation accepted nonce :=
  (mineWorker_accepts Keccak256Hash challenge fromAddress target nonce).
#[local] Abbreviation draw r := (Rand.Int r (BigInt.Lsh (BigInt.NewInt 1) 256)).

Ltac wstep_inv H :=
  unfold mineWorker_step, goto in H; cbn [pc deferred] in H;
  repeat case_match; simplify_eq;
  repeat match goal with
  | E : String.eqb _ _ = true |- _ => apply String.eqb_eq in E; subst
  | E : (_ =? _) = true |- _ => apply Z.eqb_eq in E; subst
  end.

Lemma wrun_cons w l ls :
  wrun w (l :: ls)
  = match wstep w l with Some w' => wrun w' ls | None => None end.
Proof. reflexivity. Qed.


(** The three [return]s and nothing else lead to [WReturn]. *)
Lemma wstep_into_return w l w' :
  wstep w l = Some w' -> pc w' = WReturn ->
  (pc w = WSelect /\ l = LCtxDone true) \/
  (exists e, pc w = WSendErr e /\ l = LSendErr e) \/
  (exists n, pc w = WSendResult n /\ l = LSendResult n) \/
  (pc w = WReturn /\ l = LWgDone).
Proof.
  intros H Hpc. destruct w as [p d]. wstep_inv H; cbn in *; simplify_eq; eauto 7.
Qed.



Lemma wstep_at_send_err w e l w' :
  pc w = WSendErr e -> wstep w l = Some w' -> l = LSendErr e /\ w' = goto w WReturn.
Proof.
  intros Hpc H. destruct w as [p d]. cbn in Hpc. subst p.
  wstep_inv H; cbn in *; simplify_eq; eauto.
Qed.

Lemma wstep_at_send_result w n l w' :
  pc w = WSendResult n -> wstep w l = Some w' ->
  l = LSendResult n /\ w' = goto w WReturn.
Proof.
  intros Hpc H. destruct w as [p d]. cbn in Hpc. subst p.
  wstep_inv H; cbn in *; simplify_eq; eauto.
Qed.



Lemma wstep_at_return w l w' :
  pc w = WReturn \/ pc w = WExited -> wstep w l = Some w' ->
  unwinding l /\ (pc w' = WReturn \/ pc w' = WExited).
Proof.
  intros Hpc H. destruct w as [p d]. unfold unwinding. cbn in Hpc.
  destruct Hpc; subst p; wstep_inv H; cbn in *; simplify_eq; eauto.
Qed.

(** After a [return] the worker only unwinds: it runs its deferred call
    and exits. *)
Lemma wrun_after_return w ls w' :
  pc w = WReturn \/ pc w = WExited -> wrun w ls = Some w' ->
  Forall unwinding ls.
Proof.
  revert w. induction ls as [|l ls IH]; intros w Hpc H; [constructor|].
  rewrite wrun_cons in H. destruct (wstep w l) as [w1|] eqn:E; [|discriminate].
  destruct (wstep_at_return _ _ _ Hpc E) as [Hl Hpc1].
  constructor; [exact Hl|]. eapply IH; eauto.
Qed.



End WorkerFacts.



(** ** The whole round: coordinator, workers and aggregator *)

Lemma sumZ_app l1 l2 : sumZ (l1 ++ l2) = sumZ l1 + sumZ l2.
Proof.
  unfold sumZ. induction l1 as [|x l1 IH]; cbn; [reflexivity|].
  cbn in IH. rewrite IH. lia.
Qed.

Lemma owed_app ws1 ws2 : owed (ws1 ++ ws2) = owed ws1 + owed ws2.
Proof. unfold owed. rewrite map_app. apply sumZ_app. Qed.

Lemma owes_nonneg w : 0 <= owes w.
Proof. unfold owes. destruct (pc w); lia. Qed.

Lemma owed_nonneg ws : 0 <= owed ws.
Proof.
  induction ws as [|w ws IH]; [cbn; lia|].
  change (owed (w :: ws)) with (owes w + owed ws).
  pose proof (owes_nonneg w). lia.
Qed.

Lemma owed_insert (ws : list worker) i w w' :
  ws !! i = Some w -> owed (<[i := w']> ws) = owed ws - owes w + owes w'.
Proof.
  revert i. induction ws as [|x ws IH]; intros i Hi; [discriminate|].
  destruct i as [|i]; cbn in Hi.
  - simplify_eq. change (owes w' + owed ws = owes w + owed ws - owes w + owes w'). lia.
  - change (owes x + owed (<[i := w']> ws) = owes x + owed ws - owes w + owes w').
    rewrite (IH i Hi). lia.
Qed.

Lemma owes_zero_returned w : worker_wf w -> owes w = 0 -> returned w.
Proof.
  unfold owes, worker_wf, returned. intros Hw Hz.
  destruct (pc w); try lia;
    try (rewrite Hw in Hz; cbn in Hz; lia);
    try (destruct Hw as [Hw|Hw]; rewrite Hw in Hz; cbn in Hz; try lia); auto.
Qed.

Lemma owed_zero_returned ws :
  Forall worker_wf ws -> owed ws = 0 -> Forall returned ws.
Proof.
  induction 1 as [|w ws Hw Hws IH]; intros H0; constructor;
    change (owed (w :: ws)) with (owes w + owed ws) in H0;
    pose proof (owes_nonneg w); pose proof (owed_nonneg ws).
  - apply owes_zero_returned; [exact Hw|lia].
  - apply IH. lia.
Qed.

Section RoundFacts.

Variable Keccak256Hash : list byte -> Common.Hash.
Variable cfg : config.

#[local] Abbreviation wstep := (worker_step Keccak256Hash cfg).
#[local] Abbreviation rstep := (step Keccak256Hash cfg).
#[local] Abbreviation rrun := (run Keccak256Hash cfg).

Ltac wstep_inv H :=
  unfold worker_step, mineWorker_step, goto in H; cbn [pc deferred] in H;
  repeat case_match; simplify_eq;
  repeat match goal with
  | E : String.eqb _ _ = true |- _ => apply String.eqb_eq in E; subst
  | E : (_ =? _) = true |- _ => apply Z.eqb_eq in E; subst
  end.

Lemma rrun_cons s ev evs :
  rrun s (ev :: evs)
  = match rstep s ev with Some s' => rrun s' evs | None => None end.
Proof. reflexivity. Qed.

Lemma rrun_app s evs1 evs2 s2 :
  rrun s (evs1 ++ evs2) = Some s2 <->
  exists s1, rrun s evs1 = Some s1 /\ rrun s1 evs2 = Some s2.
Proof.
  revert s. induction evs1 as [|ev evs1 IH]; intros s.
  - cbn. split; [eauto|]. intros (s1 & [= <-] & H). exact H.
  - cbn [app]. rewrite !rrun_cons.
    destruct (rstep s ev) as [s'|]; [apply IH|].
    split; [discriminate|]. intros (s1 & H & _). discriminate.
Qed.

(** A step of a worker keeps its deferred calls in order, and only the
    deferred [wg.Done()] changes what it owes. *)
Lemma wstep_wf w l w' :
  worker_wf w -> wstep w l = Some w' ->
  worker_wf w' /\
  owes w' = owes w - (match l with LWgDone => 1 | _ => 0 end).
Proof.
  intros Hwf H. destruct w as [p d]. unfold worker_wf, owes in *.
  cbn [pc deferred] in Hwf.
  wstep_inv H; cbn in *; simplify_eq; try destruct Hwf; simplify_eq;
    cbn; auto with lia.
Qed.

Lemma main_step_inv s s' :
  round_inv s -> main_step cfg s = Some s' -> round_inv s'.
Proof.
  intros [Hwf Hwg Hov] H. unfold main_step, set_coord in H.
  repeat case_match; simplify_eq; split;
    cbn [workers wg coord delivered]; auto; try done.
  - apply Forall_app; split; [exact Hwf|].
    constructor; [reflexivity|constructor].
  - rewrite owed_app, Hwg. reflexivity.
  - intros _. apply Z.eqb_eq. assumption.
  - intros _. apply Z.eqb_eq. assumption.
Qed.

Lemma worker_event_inv s i l s' :
  round_inv s -> worker_event Keccak256Hash cfg s i l = Some s' -> round_inv s'.
Proof.
  intros [Hwf Hwg Hov] H. unfold worker_event in H.
  destruct (workers s !! i) as [w|] eqn:Hi; [|discriminate].
  destruct (wstep w l) as [w'|] eqn:Hw; [|discriminate].
  pose proof (Forall_lookup_1 _ _ _ _ Hwf Hi) as Hwfw.
  destruct (wstep_wf _ _ _ Hwfw Hw) as [Hwf' Howes].
  pose proof (owed_insert _ _ _ w' Hi) as Hins.
  pose proof (owed_nonneg (<[i := w']> (workers s))) as Hnn.
  pose proof (owes_nonneg w').
  assert (Forall worker_wf (<[i := w']> (workers s))) as Hall
    by (apply Forall_insert; assumption).
  destruct l; repeat case_match; simplify_eq; split;
    cbn [workers wg coord delivered set_worker set_coord]; auto;
    try done; try lia.
  intros Hd. specialize (Hov Hd). lia.
Qed.

Lemma rstep_inv s ev s' : round_inv s -> rstep s ev = Some s' -> round_inv s'.
Proof.
  intros Hinv H. unfold step in H.
  destruct (alive s); [|discriminate].
  destruct ev.
  - eapply main_step_inv; eauto.
  - eapply worker_event_inv; eauto.
  - destruct Hinv. case_match; simplify_eq. split; assumption.
  - destruct Hinv. case_match; simplify_eq. split; assumption.
Qed.

Lemma rrun_inv s evs s' : round_inv s -> rrun s evs = Some s' -> round_inv s'.
Proof.
  revert s. induction evs as [|ev evs IH]; intros s Hinv H.
  - cbn in H. simplify_eq. exact Hinv.
  - rewrite rrun_cons in H. destruct (rstep s ev) as [s1|] eqn:E; [|discriminate].
    eapply IH; [|exact H]. eapply rstep_inv; eauto.
Qed.

Lemma init_inv : round_inv init.
Proof. split; [constructor|reflexivity|done]. Qed.

Lemma reachable_inv s : reachable Keccak256Hash cfg s -> round_inv s.
Proof. intros [evs H]. eapply rrun_inv; [apply init_inv|exact H]. Qed.

(** *** The wait group *)

Lemma wstep_return_paths w l w' :
  worker_wf w -> wstep w l = Some w' -> pc w <> WReturn -> pc w' = WReturn ->
  (l = LCtxDone true \/ (exists e, l = LSendErr e) \/
   (exists n, l = LSendResult n)) /\
  deferred w' = [DeferWgDone].
Proof.
  intros Hwf H Hne Hpc. destruct w as [p d]. unfold worker_wf in Hwf.
  cbn [pc deferred] in *.
  wstep_inv H; cbn in *; simplify_eq; eauto 6.
Qed.

Lemma deferred_done_runs s i w :
  alive s = true -> workers s !! i = Some w ->
  pc w = WReturn -> deferred w = [DeferWgDone] ->
  exists s', rstep s (EvWorker i LWgDone) = Some s' /\
             wg s' = wg s - 1 /\
             workers s' = <[i := mkWorker WReturn []]> (workers s).
Proof.
  intros Ha Hi Hpc Hd. destruct w as [p d]. cbn in Hpc, Hd. subst p d.
  unfold step, worker_event. rewrite Ha, Hi. cbn. eauto.
Qed.

(** C9. In every reachable state the wait-group counter is the number of
    spawned workers whose deferred [wg.Done()] has not run yet; a worker
    inside the loop holds exactly that one deferred call, registered at
    entry. Each of the three exits (cancellation observed, error delivered,
    nonce delivered) is a [return] that leaves the deferred call pending,
    and running it is a step that lowers the counter by one. So the counter
    is zero, and the coordinator's wait passes, only when every spawned
    worker has returned and signalled. *)
Theorem every_exit_signals_wait_group evs s :
  rrun init evs = Some s ->
  wg s = owed (workers s) /\
  Forall worker_wf (workers s) /\
  (forall i w l w',
     workers s !! i = Some w -> wstep w l = Some w' ->
     pc w <> WReturn -> pc w' = WReturn ->
     (l = LCtxDone true \/ (exists e, l = LSendErr e) \/
      (exists n, l = LSendResult n)) /\
     deferred w' = [DeferWgDone] /\
     forall s1, alive s1 = true -> workers s1 !! i = Some w' ->
       exists s2, rstep s1 (EvWorker i LWgDone) = Some s2 /\
                  wg s2 = wg s1 - 1) /\
  (wg s = 0 -> Forall returned (workers s)).
Proof.
  intros Hrun.
  destruct (rrun_inv _ _ _ init_inv Hrun) as [Hwf Hwg _].
  split; [exact Hwg|]. split; [exact Hwf|]. split.
  - intros i w l w' Hi Hstep Hne Hpc.
    pose proof (Forall_lookup_1 _ _ _ _ Hwf Hi) as Hwfw.
    destruct (wstep_return_paths _ _ _ Hwfw Hstep Hne Hpc) as [Hl Hd].
    split; [exact Hl|]. split; [exact Hd|].
    intros s1 Ha Hi1.
    destruct (deferred_done_runs _ _ _ Ha Hi1 Hpc Hd) as (s2 & H2 & Hwg2 & _).
    eauto.
  - intros H0. apply owed_zero_returned; [exact Hwf|]. lia.
Qed.

(** *** The race on the result and error channels *)

Lemma delivered_outcome c r : delivered c = Some r -> outcome c = Some r.
Proof. destruct c; cbn; congruence. Qed.

(** A send on [resultChan] or [errorChan] completes only against the
    coordinator at its [select]; every other step leaves the outcome as it
    is. *)
Lemma rstep_outcome s ev s' :
  rstep s ev = Some s' ->
  match terminal_msg ev with
  | Some r => outcome (coord s) = None /\ outcome (coord s') = Some r
  | None => outcome (coord s') = outcome (coord s)
  end.
Proof.
  unfold step. destruct (alive s); [|discriminate].
  destruct ev as [|i l| |]; cbn [terminal_msg].
  - unfold main_step, set_coord. intros H.
    repeat case_match; simplify_eq; cbn; congruence.
  - unfold worker_event, set_coord, set_worker. intros H.
    destruct l; repeat case_match; simplify_eq; cbn in *;
      repeat match goal with
      | E : coord _ = _ |- _ => rewrite E
      end; auto.
  - intros H. case_match; simplify_eq. reflexivity.
  - intros H. case_match; simplify_eq. reflexivity.
Qed.

Lemma rrun_outcome s evs s' :
  rrun s evs = Some s' ->
  match outcome (coord s) with
  | None => consumed evs = option_list (outcome (coord s'))
  | Some r => consumed evs = [] /\ outcome (coord s') = Some r
  end.
Proof.
  revert s. induction evs as [|ev evs IH]; intros s H.
  - cbn in H. simplify_eq. destruct (outcome (coord s')); auto.
  - rewrite rrun_cons in H. destruct (rstep s ev) as [s1|] eqn:E; [|discriminate].
    pose proof (rstep_outcome _ _ _ E) as Hstep.
    specialize (IH _ H). unfold consumed in *. cbn [omap list_omap].
    destruct (terminal_msg ev) as [r|].
    + destruct Hstep as [Hs Hs1]. rewrite Hs. rewrite Hs1 in IH.
      destruct IH as [-> ->]. reflexivity.
    + rewrite Hstep in IH. exact IH.
Qed.

(** What holds of the race. Whatever the number of workers and the
    interleaving: the messages taken from the result and error channels in
    a run are exactly the coordinator's outcome, so there is at most one
    (the first send to complete), it is a found nonce or an error, and when
    the round is over exactly that one result is handed on. That the round
    gets over is another matter: a worker blocked at its send keeps the
    wait from returning. *)
Theorem one_terminal_result evs s :
  rrun init evs = Some s ->
  consumed evs = option_list (outcome (coord s)) /\
  (length (consumed evs) <= 1)%nat /\
  (forall r, delivered (coord s) = Some r -> consumed evs = [r]).
Proof.
  intros Hrun. pose proof (rrun_outcome _ _ _ Hrun) as H. cbn in H.
  split; [exact H|]. split.
  - rewrite H. destruct (outcome (coord s)); cbn; lia.
  - intros r Hd. rewrite H, (delivered_outcome _ _ Hd). reflexivity.
Qed.

(** *** Cancellation: what holds *)

(** Once the signal is raised it stays raised. *)
Lemma ctx_done_stable s ev s' :
  rstep s ev = Some s' -> ctx_done s = true -> ctx_done s' = true.
Proof.
  unfold step. destruct (alive s); [|discriminate].
  destruct ev as [|i l| |]; intros H Hc.
  - unfold main_step, set_coord in H. repeat case_match; simplify_eq; cbn; auto.
  - unfold worker_event, set_coord, set_worker in H.
    destruct l; repeat case_match; simplify_eq; cbn; auto.
  - case_match; simplify_eq. exact Hc.
  - case_match; simplify_eq. exact Hc.
Qed.

(** A worker that reaches the [select] after the signal was raised returns
    there: it draws no further nonce and reports nothing. *)
Lemma cancelled_select_returns s i l s' w :
  ctx_done s = true -> workers s !! i = Some w -> pc w = WSelect ->
  rstep s (EvWorker i l) = Some s' ->
  l = LCtxDone true /\ workers s' = <[i := goto w WReturn]> (workers s).
Proof.
  intros Hc Hi Hpc. unfold step. destruct (alive s); [|discriminate].
  unfold worker_event. rewrite Hi.
  destruct w as [p d]. cbn in Hpc. subst p.
  destruct l; cbn; try discriminate.
  destruct closed; cbn; rewrite Hc; cbn; [|discriminate].
  intros [= <-]. auto.
Qed.

(** Once the round is over (the wait has returned) every worker has
    returned, and no run from there contains a hash-count message. *)
Lemma no_count_after_round s evs' s' :
  reachable Keccak256Hash cfg s -> delivered (coord s) <> None ->
  rrun s evs' = Some s' ->
  Forall returned (workers s) /\ Forall (fun ev => is_count ev = false) evs'.
Proof.
  intros Hreach Hd Hrun. pose proof (reachable_inv _ Hreach) as Hinv.
  split.
  { destruct Hinv as [Hwf Hwg Hov]. apply owed_zero_returned; [exact Hwf|].
    rewrite <- Hwg. auto. }
  clear Hreach. revert s Hinv Hd Hrun.
  induction evs' as [|ev evs' IH]; intros s Hinv Hd Hrun; [constructor|].
  rewrite rrun_cons in Hrun.
  destruct (rstep s ev) as [s1|] eqn:E; [|discriminate].
  pose proof (rstep_inv _ _ _ Hinv E) as Hinv1.
  assert (delivered (coord s1) <> None /\ is_count ev = false) as [Hd1 Hc].
  { destruct Hinv as [Hwf Hwg Hov].
    assert (Forall returned (workers s)) as Hret
      by (apply owed_zero_returned; [exact Hwf|rewrite <- Hwg; auto]).
    unfold step in E. destruct (alive s); [|discriminate].
    destruct ev as [|i l| |].
    - unfold main_step in E. destruct (coord s); cbn in Hd; try done.
    - unfold worker_event in E.
      destruct (workers s !! i) as [w|] eqn:Hi; [|discriminate].
      destruct (Forall_lookup_1 _ _ _ _ Hret Hi) as [Hpc Hdef].
      destruct (wstep w l) as [w'|] eqn:Hw; [|discriminate].
      destruct w as [p d]. cbn in Hpc, Hdef. subst d.
      destruct Hpc; subst p; wstep_inv Hw; cbn in *; simplify_eq.
      split; [exact Hd|reflexivity].
    - case_match; simplify_eq. split; [exact Hd|reflexivity].
    - case_match; simplify_eq. split; [exact Hd|reflexivity]. }
  constructor; [exact Hc|]. eapply IH; eauto.
Qed.

End RoundFacts.

(** *** Cancellation: what fails *)

Lemma draw_reader_of n :
  0 <= n < 2 ^ 256 ->
  Rand.Int (reader_of n) (BigInt.Lsh (BigInt.NewInt 1) 256)
  = Rand.Ok n (Rand.mkReader [] "EOF"%string).
Proof.
  intros Hn. rewrite RandFacts.Int_two_pow_256.
  unfold Rand.ReadFull, reader_of. cbn [Rand.avail Rand.fail].
  rewrite BigIntFacts.be_bytes_length. cbn [Nat.leb].
  rewrite <- (BigIntFacts.be_bytes_length 32 n) at 1 3.
  rewrite firstn_all, skipn_all, BigIntFacts.SetBytes_be_bytes.
  rewrite Z.mod_small by exact Hn. reflexivity.
Qed.

Section Deadlock.

Variable Keccak256Hash : list byte -> Common.Hash.
Variables (challenge : Z) (fromAddress : Common.Address).

#[local] Abbreviation cfg0 := (mkConfig challenge 0 fromAddress 2).

(** At difficulty 0 the target is [2^256] and every digest is below it. *)
Lemma difficulty_0_accepts nonce :
  mineWorker_accepts Keccak256Hash challenge fromAddress (main_target 0) nonce
  = true.
Proof.
  unfold mineWorker_accepts. apply Cmp_lt.
  change (main_target 0) with (2 ^ 256). apply CommonFacts.Hash_Big_range.
Qed.

Lemma difficulty_0_draw n d :
  0 <= n < 2 ^ 256 ->
  worker_step Keccak256Hash cfg0 (mkWorker WDraw d) (LDraw (reader_of n))
  = Some (mkWorker (WSendResult n) d).
Proof.
  intros Hn. unfold worker_step, mineWorker_step. cbn [pc].
  rewrite (draw_reader_of n Hn).
  unfold round_target. cbn [cfg_difficulty cfg_challenge cfg_from].
  rewrite difficulty_0_accepts. reflexivity.
Qed.

Ltac run_event :=
  rewrite rrun_cons;
  lazymatch goal with
  | |- match step _ _ _ (EvWorker _ (LDraw _)) with _ => _ end = _ =>
      unfold step, worker_event; cbn -[run worker_step];
      rewrite difficulty_0_draw by lia; cbn -[run worker_step]
  | |- match step ?K ?c ?s ?ev with _ => _ end = _ =>
      let v := eval vm_compute in (step K c s ev) in
      replace (step K c s ev) with v by (vm_compute; reflexivity);
      cbv beta iota
  end.

(** C6, the failing run. Two workers at difficulty 0. Both find a nonce;
    the coordinator takes the one of worker 0, cancels and waits. Worker 1
    is at its send on the result channel, where nobody receives any more:
    in the state reached no goroutine can take a step, so worker 1 never
    observes the cancellation and never stops, and the wait never returns. *)
Theorem second_finder_never_stops :
  run Keccak256Hash cfg0 init two_finders = Some second_finder_stuck /\
  ctx_done second_finder_stuck = true /\
  coord second_finder_stuck = CResWait 5 /\
  second_finder_stuck.(workers) !! 1%nat
    = Some (mkWorker (WSendResult 6) [DeferWgDone]) /\
  (forall ev, step Keccak256Hash cfg0 second_finder_stuck ev = None).
Proof.
  split; [|split; [reflexivity|split; [reflexivity|split; [reflexivity|]]]].
  - unfold two_finders. do 14 run_event. reflexivity.
  - intros ev. unfold step, second_finder_stuck. cbn [alive coord].
    destruct ev as [|i l| |]; [reflexivity| |reflexivity|reflexivity].
    unfold worker_event. cbn [workers].
    destruct i as [|[|i]]; [| |reflexivity].
    + destruct l; reflexivity.
    + destruct l; try reflexivity.
      unfold worker_step, mineWorker_step. cbn [pc nth_error lookup list_lookup].
      destruct (6 =? nonce); reflexivity.
Qed.

Lemma two_finders_run :
  run Keccak256Hash cfg0 init two_finders = Some second_finder_stuck.
Proof. unfold two_finders. do 14 run_event. reflexivity. Qed.

Lemma second_finder_stuck_no_step ev :
  step Keccak256Hash cfg0 second_finder_stuck ev = None.
Proof.
  unfold step, second_finder_stuck. cbn [alive coord].
  destruct ev as [|i l| |]; [reflexivity| |reflexivity|reflexivity].
  unfold worker_event. cbn [workers].
  destruct i as [|[|i]]; [| |reflexivity].
  - destruct l; reflexivity.
  - destruct l; try reflexivity.
    unfold worker_step, mineWorker_step. cbn [pc nth_error lookup list_lookup].
    destruct (6 =? nonce); reflexivity.
Qed.

Lemma second_finder_stuck_for_ever evs s :
  run Keccak256Hash cfg0 second_finder_stuck evs = Some s ->
  evs = [] /\ s = second_finder_stuck.
Proof.
  destruct evs as [|ev evs].
  - cbn. intros [= <-]. auto.
  - rewrite rrun_cons, second_finder_stuck_no_step. discriminate.
Qed.

(** C8, the failing run. Two workers (N = 2 >= 1) at difficulty 0, in the
    interleaving [two_finders]: the coordinator takes exactly one message,
    the nonce 5 of worker 0, from the result channel, but it never hands it
    on: it is at [wg.Wait()] (line 175), worker 1 is blocked at its own send,
    and in no continuation of the run is a result delivered. The round
    delivers no SearchResult where the claim says exactly one. *)
Theorem first_result_never_delivered :
  1 <= cfg_workerCount cfg0 /\
  run Keccak256Hash cfg0 init two_finders = Some second_finder_stuck /\
  consumed two_finders = [Found 5] /\
  outcome (coord second_finder_stuck) = Some (Found 5) /\
  (forall evs s,
     run Keccak256Hash cfg0 second_finder_stuck evs = Some s ->
     delivered (coord s) = None).
Proof.
  split; [cbn; lia|]. split; [exact two_finders_run|].
  split; [reflexivity|]. split; [reflexivity|].
  intros evs s H.
  destruct (second_finder_stuck_for_ever _ _ H) as [_ ->]. reflexivity.
Qed.

End Deadlock.

(** ** Configuration errors *)

Section NoWorkers.

Variable Keccak256Hash : list byte -> Common.Hash.
Variable cfg : config.
Hypothesis no_workers : cfg_workerCount cfg <= 0.



End NoWorkers.





(** ** Witnesses for the round *)

Example miss_then_find_runs :
  run tail_hash cfg_252 init miss_then_find = Some miss_then_find_end.
Proof. vm_compute. reflexivity. Qed.

Lemma every_exit_signals_wait_group_witness :
  run tail_hash cfg_252 init miss_then_find = Some miss_then_find_end /\
  wg miss_then_find_end = owed (workers miss_then_find_end) /\
  Forall returned (workers miss_then_find_end).
Proof.
  split; [exact miss_then_find_runs|].
  pose proof (every_exit_signals_wait_group tail_hash cfg_252
                miss_then_find miss_then_find_end miss_then_find_runs)
    as (Hwg & _ & _ & Hret).
  split; [exact Hwg|]. apply Hret. reflexivity.
Defined.

Lemma one_terminal_result_witness :
  run tail_hash cfg_252 init miss_then_find = Some miss_then_find_end /\
  consumed miss_then_find = [Found 5].
Proof.
  split; [exact miss_then_find_runs|].
  apply (one_terminal_result tail_hash cfg_252 miss_then_find
           miss_then_find_end miss_then_find_runs).
  reflexivity.
Defined.

Lemma target_pow2_antitone_witness :
  main_target 12 = 2 ^ (256 - 12) /\ main_target 20 <= main_target 12.
Proof.
  split.
  - apply (proj1 target_pow2_antitone 12). lia.
  - apply (proj2 target_pow2_antitone 12 20); lia.
Defined.

(** ** The aggregator *)

Lemma wrap_int_small x : - 2 ^ 63 <= x < 2 ^ 63 -> wrap_int x = x.
Proof. intros H. unfold wrap_int. rewrite Z.mod_small by lia. lia. Qed.

Lemma wrap_int_add x y : wrap_int (wrap_int x + y) = wrap_int (x + y).
Proof.
  unfold wrap_int. f_equal.
  replace ((x + 2 ^ 63) mod 2 ^ 64 - 2 ^ 63 + y + 2 ^ 63)
    with ((x + 2 ^ 63) mod 2 ^ 64 + y) by lia.
  rewrite Z.add_mod_idemp_l by lia. f_equal. lia.
Qed.

(** Counts only add up, modulo the width of [int]; nothing is emitted. *)
Lemma agg_run_counts cs : forall a,
  agg_run a (map AggCount cs)
  = {| totalHashCount :=
         match cs with
         | [] => totalHashCount a
         | _ :: _ => wrap_int (totalHashCount a + sumZ cs)
         end;
       emitted := emitted a |}.
Proof.
  induction cs as [|c cs IH]; intros a.
  - destruct a. reflexivity.
  - change (agg_run a (map AggCount (c :: cs)))
      with (agg_run (agg_step a (AggCount c)) (map AggCount cs)).
    rewrite IH. cbn [agg_step totalHashCount emitted]. f_equal.
    change (sumZ (c :: cs)) with (c + sumZ cs).
    destruct cs as [|c' cs].
    + cbn. f_equal. lia.
    + rewrite wrap_int_add. f_equal. lia.
Qed.

Lemma agg_tick_resets a : totalHashCount (agg_step a AggTick) = 0.
Proof. reflexivity. Qed.

Example rate_3000 : hashesPerSecond 3000 = 3%float.
Proof. vm_compute. reflexivity. Qed.

Example rate_1500 : hashesPerSecond 1500 = 1.5%float.
Proof. vm_compute. reflexivity. Qed.

Example interval_in_milliseconds : tickerInterval / Millisecond = 1000.
Proof. reflexivity. Qed.

(** C7. Start an interval with the counter at zero, as every emission
    leaves it, and let the aggregator receive the increments [cs] and then
    the tick. The value it emits is the binary64 quotient of the sum of the
    increments by the length of the interval in milliseconds (the rate in
    thousands of hashes per second that the console line announces), and the
    counter is zero again. The sum is assumed to fit Go's [int]. *)
Theorem aggregator_rate a cs :
  totalHashCount a = 0 ->
  - 2 ^ 63 <= sumZ cs < 2 ^ 63 ->
  let a' := agg_run a (map AggCount cs ++ [AggTick]) in
  emitted a'
  = emitted a ++
      [(float64_of_int (sumZ cs)
        / float64_of_int (tickerInterval / Millisecond))%float] /\
  totalHashCount a' = 0.
Proof.
  intros H0 Hsum a'. subst a'. unfold agg_run.
  rewrite fold_left_app. fold (agg_run a (map AggCount cs)).
  rewrite agg_run_counts. cbn [fold_left agg_step totalHashCount emitted].
  split; [|reflexivity].
  f_equal. f_equal. unfold hashesPerSecond.
  change (float64_of_int (tickerInterval / Millisecond)) with 1000%float.
  f_equal. rewrite H0.
  destruct cs as [|c cs]; [reflexivity|].
  rewrite Z.add_0_l. rewrite wrap_int_small by exact Hsum. reflexivity.
Qed.

Lemma aggregator_rate_witness :
  (totalHashCount (mkAggregator 0 [0.5%float]) = 0 /\
   - 2 ^ 63 <= sumZ [1; 1; 1998] < 2 ^ 63) /\
  emitted (agg_run (mkAggregator 0 [0.5%float])
             (map AggCount [1; 1; 1998] ++ [AggTick]))
  = [0.5%float; 2%float].
Proof.
  split; [split; [reflexivity|unfold sumZ; cbn [fold_right]; lia]|].
  refine (proj1 (aggregator_rate (mkAggregator 0 [0.5%float]) [1; 1; 1998]
                   eq_refl _)).
  unfold sumZ; cbn [fold_right]; lia.
Defined.

(** * Further properties of the code *)

(** ** The hashed bytes (lines 59-62) *)

Lemma LeftPadBytes_length_max slice l :
  length (Common.LeftPadBytes slice l) = Nat.max l (length slice).
Proof.
  unfold Common.LeftPadBytes.
  destruct (l <=? length slice)%nat eqn:E.
  - apply Nat.leb_le in E. lia.
  - apply Nat.leb_gt in E. rewrite length_app, repeat_length. lia.
Qed.

Lemma Bytes_length_gt x l :
  256 ^ Z.of_nat l <= x -> (l < length (BigInt.Bytes x))%nat.
Proof.
  intros Hx.
  assert (0 < 256 ^ Z.of_nat l) as Hpos by (apply Z.pow_pos_nonneg; lia).
  pose proof (BigIntFacts.lt_pow256_Bytes x ltac:(lia)) as Hlt.
  destruct (Nat.lt_ge_cases l (length (BigInt.Bytes x))) as [H|H]; [exact H|].
  assert (256 ^ Z.of_nat (length (BigInt.Bytes x)) <= 256 ^ Z.of_nat l)
    by (apply Z.pow_le_mono_r; lia).
  lia.
Qed.

Lemma mineWorker_data_length challenge fromAddress nonce :
  length (mineWorker_data challenge fromAddress nonce)
  = (Nat.max 32 (length (BigInt.Bytes challenge)) + 20
     + Nat.max 32 (length (BigInt.Bytes nonce)))%nat.
Proof.
  unfold mineWorker_data, Common.Address_Bytes.
  rewrite !length_app, !LeftPadBytes_length_max, (Common.address_len fromAddress).
  unfold Common.AddressLength. lia.
Qed.

(** X1. The padding never truncates: the hashed data has the 20 address
    bytes plus, for the challenge and for the nonce, 32 bytes or the length
    of the number's minimal encoding if that is longer. So the data always
    has at least 84 bytes; it has exactly 84 when challenge and nonce are
    below 2^256, and more when the challenge is not. *)
Theorem data_never_truncated challenge fromAddress nonce :
  length (mineWorker_data challenge fromAddress nonce)
  = (Nat.max 32 (length (BigInt.Bytes challenge)) + 20
     + Nat.max 32 (length (BigInt.Bytes nonce)))%nat /\
  (84 <= length (mineWorker_data challenge fromAddress nonce))%nat /\
  (0 <= challenge < 2 ^ 256 -> 0 <= nonce < 2 ^ 256 ->
   length (mineWorker_data challenge fromAddress nonce) = 84%nat) /\
  (2 ^ 256 <= challenge ->
   (84 < length (mineWorker_data challenge fromAddress nonce))%nat).
Proof.
  pose proof (mineWorker_data_length challenge fromAddress nonce) as Hlen.
  split; [exact Hlen|]. split; [lia|]. split.
  - intros Hc Hn.
    pose proof (BigIntFacts.Bytes_length_le challenge 32 Hc).
    pose proof (BigIntFacts.Bytes_length_le nonce 32 Hn). lia.
  - intros Hc.
    pose proof (Bytes_length_gt challenge 32 Hc). lia.
Qed.

Lemma data_never_truncated_witness :
  (0 <= 7 < 2 ^ 256 /\ 0 <= 99 < 2 ^ 256 /\
   length (mineWorker_data 7 zero_address 99) = 84%nat) /\
  (2 ^ 256 <= 2 ^ 256 /\
   (84 < length (mineWorker_data (2 ^ 256) zero_address 99))%nat).
Proof.
  split.
  - split; [lia|]. split; [lia|].
    apply (data_never_truncated 7 zero_address 99); lia.
  - split; [lia|].
    apply (data_never_truncated (2 ^ 256) zero_address 99). lia.
Defined.

Lemma data_decode challenge fromAddress nonce :
  0 <= challenge < 2 ^ 256 -> 0 <= nonce < 2 ^ 256 ->
  BigInt.SetBytes (firstn 32 (mineWorker_data challenge fromAddress nonce))
    = challenge /\
  firstn 20 (skipn 32 (mineWorker_data challenge fromAddress nonce))
    = Common.Address_Bytes fromAddress /\
  BigInt.SetBytes (skipn 52 (mineWorker_data challenge fromAddress nonce))
    = nonce.
Proof.
  intros Hc Hn. rewrite mineWorker_data_spec by assumption.
  unfold spec_preimage.
  destruct (be32_faithful challenge Hc) as [Hlc Hvc].
  destruct (be32_faithful nonce Hn) as [Hln Hvn].
  assert (length (Common.Address_Bytes fromAddress) = 20%nat) as Hla
    by apply Common.address_len.
  split; [|split].
  - rewrite firstn_app, <- Hlc, firstn_all, Nat.sub_diag. cbn [firstn].
    rewrite app_nil_r. exact Hvc.
  - rewrite skipn_app, <- Hlc, skipn_all, Nat.sub_diag, skipn_O. cbn [app].
    rewrite firstn_app, <- Hla, firstn_all, Nat.sub_diag. cbn [firstn].
    apply app_nil_r.
  - rewrite app_assoc, skipn_app.
    assert (length (be32 challenge ++ Common.Address_Bytes fromAddress) = 52%nat)
      as Hl by (rewrite length_app; lia).
    rewrite <- Hl, skipn_all, Nat.sub_diag, skipn_O. cbn [app]. exact Hvn.
Qed.

(** X2. For challenge and nonce below 2^256 the hashed data can be read
    back: its first 32 bytes are the challenge, the next 20 the address, the
    last 32 the nonce. Hence equal data means equal challenge, address bytes
    and nonce: two different candidates are never hashed as the same
    bytes. *)
Theorem data_round_trip challenge fromAddress nonce :
  0 <= challenge < 2 ^ 256 -> 0 <= nonce < 2 ^ 256 ->
  (BigInt.SetBytes (firstn 32 (mineWorker_data challenge fromAddress nonce))
     = challenge /\
   firstn 20 (skipn 32 (mineWorker_data challenge fromAddress nonce))
     = Common.Address_Bytes fromAddress /\
   BigInt.SetBytes (skipn 52 (mineWorker_data challenge fromAddress nonce))
     = nonce) /\
  (forall challenge' fromAddress' nonce',
     0 <= challenge' < 2 ^ 256 -> 0 <= nonce' < 2 ^ 256 ->
     mineWorker_data challenge fromAddress nonce
       = mineWorker_data challenge' fromAddress' nonce' ->
     challenge = challenge' /\
     Common.Address_Bytes fromAddress = Common.Address_Bytes fromAddress' /\
     nonce = nonce').
Proof.
  intros Hc Hn. split; [apply data_decode; assumption|].
  intros c' a' n' Hc' Hn' Heq.
  destruct (data_decode challenge fromAddress nonce Hc Hn) as (H1 & H2 & H3).
  destruct (data_decode c' a' n' Hc' Hn') as (H1' & H2' & H3').
  rewrite Heq in H1, H2, H3. split; [congruence|]. split; congruence.
Qed.

Lemma data_round_trip_witness :
  (0 <= 7 < 2 ^ 256 /\ 0 <= 99 < 2 ^ 256) /\
  BigInt.SetBytes (skipn 52 (mineWorker_data 7 zero_address 99)) = 99.
Proof.
  split; [lia|].
  apply (data_round_trip 7 zero_address 99); lia.
Defined.

(** ** The acceptance test (line 64) against the target (lines 136-137) *)

Section AcceptFacts.

Variable Keccak256Hash : list byte -> Common.Hash.
Variables (challenge : Z) (fromAddress : Common.Address).

#[local] Abbreviation accepts target nonce :=
  (mineWorker_accepts Keccak256Hash challenge fromAddress target nonce).
#[local] Abbreviation digest nonce :=
  (Common.Hash_Big (mineWorker_hash Keccak256Hash challenge fromAddress nonce)).

Lemma accepts_lt target nonce : accepts target nonce = true <-> digest nonce < target.
Proof. unfold mineWorker_accepts. apply Cmp_lt. Qed.

(** X3. A nonce accepted against a target is accepted against every larger
    target; so, for difficulties in [0, 256], a nonce accepted at a
    difficulty is accepted at every lower one. *)
Theorem accepted_at_lower_difficulty nonce :
  (forall t t', t <= t' -> accepts t nonce = true -> accepts t' nonce = true) /\
  (forall d d', 0 <= d' <= d -> d <= 256 ->
     accepts (main_target d) nonce = true ->
     accepts (main_target d') nonce = true).
Proof.
  assert (forall t t', t <= t' -> accepts t nonce = true -> accepts t' nonce = true)
    as Hmono.
  { intros t t' Hle H. apply accepts_lt. apply accepts_lt in H. lia. }
  split; [exact Hmono|].
  intros d d' Hd' Hd. apply Hmono.
  rewrite !main_target_in_range by lia.
  apply Z.pow_le_mono_r; lia.
Qed.

(** X4. The two ends of the difficulty range: at difficulty 0 every nonce
    is accepted, at difficulty 256 exactly the nonces whose digest is the
    number 0; and no target of zero or less accepts anything. *)
Theorem acceptance_at_the_extremes nonce :
  accepts (main_target 0) nonce = true /\
  (accepts (main_target 256) nonce = true <-> digest nonce = 0) /\
  (forall t, t <= 0 -> accepts t nonce = false).
Proof.
  pose proof (CommonFacts.Hash_Big_range
                (mineWorker_hash Keccak256Hash challenge fromAddress nonce)) as Hr.
  split; [|split].
  - apply accepts_lt. change (main_target 0) with (2 ^ 256). lia.
  - rewrite accepts_lt. change (main_target 256) with 1. lia.
  - intros t Ht. destruct (accepts t nonce) eqn:E; [|reflexivity].
    apply accepts_lt in E. lia.
Qed.

End AcceptFacts.

Lemma accepted_at_lower_difficulty_witness :
  (0 <= 250 <= 252 /\ 252 <= 256 /\
   mineWorker_accepts tail_hash 7 zero_address (main_target 252) 5 = true) /\
  mineWorker_accepts tail_hash 7 zero_address (main_target 250) 5 = true.
Proof.
  assert (mineWorker_accepts tail_hash 7 zero_address (main_target 252) 5 = true)
    as H by (vm_compute; reflexivity).
  split; [split; [lia|split; [lia|exact H]]|].
  apply (proj2 (accepted_at_lower_difficulty tail_hash 7 zero_address 5) 252 250);
    [lia|lia|exact H].
Defined.

Lemma acceptance_at_the_extremes_witness :
  (-1 <= 0) /\ mineWorker_accepts tail_hash 7 zero_address (-1) 5 = false.
Proof.
  split; [lia|].
  apply (acceptance_at_the_extremes tail_hash 7 zero_address 5). lia.
Defined.

(** ** The attempt of a worker (lines 53-68) *)

Example short_read_after_bytes :
  Rand.short_read (Rand.mkReader (repeat x00 10) Rand.EOF) = Rand.ErrUnexpectedEOF.
Proof. reflexivity. Qed.

Section AttemptFacts.

Variable Keccak256Hash : list byte -> Common.Hash.
Variables (challenge : Z) (fromAddress : Common.Address) (target : Z).

(** X5. An attempt of a worker makes one read of 32 bytes and never
    retries. If fewer than 32 bytes can be read, the worker goes to its send
    on the error channel with the error of the read, wrapped; that error is
    the reader's own, except that an [io.EOF] after some bytes is
    [io.ErrUnexpectedEOF]. Otherwise the nonce is those 32 bytes read as a
    big-endian number, it lies in [0, 2^256), and the worker goes to the send
    of the nonce if the test accepts it and to the hash-count send if not. *)
Theorem attempt_is_one_read_of_32_bytes w r :
  pc w = WDraw ->
  ((length (Rand.avail r) < 32)%nat ->
   mineWorker_step Keccak256Hash challenge fromAddress target w (LDraw r)
   = Some (goto w (WSendErr (Errorf_nonce (Rand.short_read r)))) /\
   (Rand.fail r = Rand.EOF -> Rand.avail r <> [] ->
    Rand.short_read r = Rand.ErrUnexpectedEOF) /\
   (Rand.fail r <> Rand.EOF \/ Rand.avail r = [] ->
    Rand.short_read r = Rand.fail r)) /\
  ((32 <= length (Rand.avail r))%nat ->
   0 <= BigInt.SetBytes (firstn 32 (Rand.avail r)) < 2 ^ 256 /\
   mineWorker_step Keccak256Hash challenge fromAddress target w (LDraw r)
   = Some (goto w
       (if mineWorker_accepts Keccak256Hash challenge fromAddress target
             (BigInt.SetBytes (firstn 32 (Rand.avail r)))
        then WSendResult (BigInt.SetBytes (firstn 32 (Rand.avail r)))
        else WSendCount))).
Proof.
  intros Hpc. destruct w as [p d]. cbn in Hpc. subst p.
  unfold mineWorker_step. cbn [pc].
  rewrite RandFacts.Int_two_pow_256. unfold Rand.ReadFull.
  split; intros Hlen.
  - destruct (32 <=? length (Rand.avail r))%nat eqn:E;
      [apply Nat.leb_le in E; lia|].
    split; [reflexivity|]. unfold Rand.short_read. split.
    + intros Hf Ha. rewrite Hf, String.eqb_refl.
      destruct (Rand.avail r); [congruence|reflexivity].
    + intros [Hf|Ha].
      * apply String.eqb_neq in Hf. rewrite Hf. reflexivity.
      * rewrite Ha. cbn. rewrite andb_false_r. reflexivity.
  - destruct (32 <=? length (Rand.avail r))%nat eqn:E;
      [|apply Nat.leb_gt in E; lia].
    pose proof (BigIntFacts.SetBytes_range (firstn 32 (Rand.avail r))) as Hr.
    rewrite length_firstn, Nat.min_l in Hr by exact Hlen.
    split; [exact Hr|].
    destruct (mineWorker_accepts _ _ _ _ _); reflexivity.
Qed.

End AttemptFacts.

Lemma attempt_is_one_read_of_32_bytes_witness :
  (pc (mkWorker WDraw [DeferWgDone]) = WDraw /\
   (length (Rand.avail (Rand.mkReader (repeat x00 10) Rand.EOF)) < 32)%nat) /\
  mineWorker_step tail_hash 7 zero_address 100 (mkWorker WDraw [DeferWgDone])
    (LDraw (Rand.mkReader (repeat x00 10) Rand.EOF))
  = Some (mkWorker
            (WSendErr "failed to generate random nonce: unexpected EOF"%string)
            [DeferWgDone]).
Proof.
  split; [split; [reflexivity|cbn; lia]|].
  apply (attempt_is_one_read_of_32_bytes tail_hash 7 zero_address 100
           (mkWorker WDraw [DeferWgDone])
           (Rand.mkReader (repeat x00 10) Rand.EOF) eq_refl).
  cbn. lia.
Defined.

(** ** What one worker reports *)

Lemma tally_cons f l ls :
  tally f (l :: ls) = (Nat.b2n (f l) + tally f ls)%nat.
Proof. unfold tally. cbn [List.filter]. destruct (f l); reflexivity. Qed.

Lemma tally_unwinding f ls :
  (forall l, unwinding l -> f l = false) -> Forall unwinding ls -> tally f ls = 0%nat.
Proof.
  intros Hf. induction 1 as [|l ls Hl _ IH]; [reflexivity|].
  rewrite tally_cons, IH, (Hf l Hl). reflexivity.
Qed.

Section WorkerAccounting.

Variable Keccak256Hash : list byte -> Common.Hash.
Variables (challenge : Z) (fromAddress : Common.Address) (target : Z).

#[local] Abbreviation wstep :=
  (mineWorker_step Keccak256Hash challenge fromAddress target).
#[local] Abbreviation wrun :=
  (mineWorker_run Keccak256Hash challenge fromAddress target).

Ltac wstep_inv H :=
  unfold mineWorker_step, goto in H; cbn [pc deferred] in H;
  repeat case_match; simplify_eq;
  repeat match goal with
  | E : String.eqb _ _ = true |- _ => apply String.eqb_eq in E; subst
  | E : (_ =? _) = true |- _ => apply Z.eqb_eq in E; subst
  end.

(** A draw puts the worker at a send; the send, completed, is a report. *)
Lemma wstep_accounting w l w' :
  wstep w l = Some w' ->
  (Nat.b2n (is_draw l) + at_send w
   = Nat.b2n (is_count_send l) + Nat.b2n (is_terminal_send l) + at_send w')%nat.
Proof.
  intros H. destruct w as [p d]. unfold at_send.
  wstep_inv H; cbn; reflexivity.
Qed.

Lemma wstep_owes w l w' :
  worker_wf w -> wstep w l = Some w' ->
  worker_wf w' /\ owes w = owes w' + Z.of_nat (Nat.b2n (is_wg_done l)).
Proof.
  intros Hwf H. destruct w as [p d]. unfold worker_wf, owes in *.
  cbn [pc deferred] in Hwf.
  wstep_inv H; cbn in *; simplify_eq; try destruct Hwf; simplify_eq;
    cbn; auto with lia.
Qed.

Lemma wstep_terminal w l w' :
  wstep w l = Some w' -> is_terminal_send l = true -> pc w' = WReturn.
Proof.
  intros H Hl. destruct w as [p d]. wstep_inv H; cbn in *; congruence.
Qed.

Lemma wrun_accounting ls : forall w0 w,
  wrun w0 ls = Some w ->
  (tally is_draw ls + at_send w0
   = tally is_count_send ls + tally is_terminal_send ls + at_send w)%nat.
Proof.
  induction ls as [|l ls IH]; intros w0 w H.
  - cbn in H. simplify_eq. cbn. lia.
  - rewrite wrun_cons in H. destruct (wstep w0 l) as [w1|] eqn:E; [|discriminate].
    pose proof (wstep_accounting _ _ _ E). specialize (IH _ _ H).
    rewrite !tally_cons. lia.
Qed.

Lemma wrun_owes ls : forall w0 w,
  worker_wf w0 -> wrun w0 ls = Some w ->
  worker_wf w /\ owes w0 = owes w + Z.of_nat (tally is_wg_done ls).
Proof.
  induction ls as [|l ls IH]; intros w0 w Hwf H.
  - cbn in H. simplify_eq. cbn. split; [exact Hwf|lia].
  - rewrite wrun_cons in H. destruct (wstep w0 l) as [w1|] eqn:E; [|discriminate].
    destruct (wstep_owes _ _ _ Hwf E) as [Hwf1 Ho].
    destruct (IH _ _ Hwf1 H) as [Hwf' Ho'].
    split; [exact Hwf'|]. rewrite tally_cons. lia.
Qed.

Lemma wrun_one_terminal ls : forall w0 w,
  wrun w0 ls = Some w -> (tally is_terminal_send ls <= 1)%nat.
Proof.
  induction ls as [|l ls IH]; intros w0 w H; [cbn; lia|].
  rewrite wrun_cons in H. destruct (wstep w0 l) as [w1|] eqn:E; [|discriminate].
  rewrite tally_cons. destruct (is_terminal_send l) eqn:Hl.
  - pose proof (wstep_terminal _ _ _ E Hl) as Hpc.
    assert (Forall unwinding ls) as Hun.
    { eapply (wrun_after_return Keccak256Hash challenge fromAddress target w1);
        [left; exact Hpc|exact H]. }
    rewrite (tally_unwinding is_terminal_send ls); [cbn; lia| |exact Hun].
    intros l' [-> | ->]; reflexivity.
  - specialize (IH _ _ H). cbn. lia.
Qed.

(** X6. In every run of a worker from its start, each draw is reported
    exactly once: the number of draws is the number of hash-count messages
    delivered, plus the result or error delivered, plus one if the worker is
    at a send that has not completed. A worker delivers at most one result
    or error in its life, and runs [wg.Done()] at most once, exactly once
    when it has exited. *)
Theorem worker_reports_each_draw_once ls w :
  wrun new_worker ls = Some w ->
  (tally is_draw ls
   = tally is_count_send ls + tally is_terminal_send ls + at_send w)%nat /\
  (tally is_terminal_send ls <= 1)%nat /\
  (tally is_wg_done ls <= 1)%nat /\
  (pc w = WExited -> tally is_wg_done ls = 1%nat).
Proof.
  intros H.
  pose proof (wrun_accounting _ _ _ H) as Hacc. cbn [at_send new_worker pc] in Hacc.
  destruct (wrun_owes ls new_worker w eq_refl H) as [Hwf Ho].
  change (owes new_worker) with 1 in Ho.
  pose proof (owes_nonneg w).
  split; [lia|]. split; [eapply wrun_one_terminal; exact H|]. split; [lia|].
  intros Hpc. unfold owes in Ho. unfold worker_wf in Hwf.
  rewrite Hpc in Ho, Hwf. rewrite Hwf in Ho. cbn in Ho. lia.
Qed.

End WorkerAccounting.

Lemma worker_reports_each_draw_once_witness :
  mineWorker_run tail_hash 7 zero_address 100 new_worker
    [LDefer; LCtxDone false; LDraw (reader_of 500); LSendCount 1;
     LCtxDone false; LDraw (reader_of 5)]
    = Some (mkWorker (WSendResult 5) [DeferWgDone]) /\
  (tally is_terminal_send
     [LDefer; LCtxDone false; LDraw (reader_of 500); LSendCount 1;
      LCtxDone false; LDraw (reader_of 5)] <= 1)%nat.
Proof.
  assert (mineWorker_run tail_hash 7 zero_address 100 new_worker
    [LDefer; LCtxDone false; LDraw (reader_of 500); LSendCount 1;
     LCtxDone false; LDraw (reader_of 5)]
    = Some (mkWorker (WSendResult 5) [DeferWgDone])) as H
    by (vm_compute; reflexivity).
  split; [exact H|].
  apply (worker_reports_each_draw_once tail_hash 7 zero_address 100 _ _ H).
Defined.

(** ** More about the round *)

Lemma owes_le_1 w : worker_wf w -> owes w <= 1.
Proof.
  unfold worker_wf, owes. intros H.
  destruct (pc w); try lia; try (rewrite H; cbn; lia);
    destruct H as [H|H]; rewrite H; cbn; lia.
Qed.

Lemma owed_le_length ws :
  Forall worker_wf ws -> owed ws <= Z.of_nat (length ws).
Proof.
  induction 1 as [|w ws Hw _ IH]; [cbn; lia|].
  change (owed (w :: ws)) with (owes w + owed ws).
  pose proof (owes_le_1 w Hw). cbn [length]. lia.
Qed.

Lemma owes_searching w : worker_wf w -> searching w -> owes w = 1.
Proof.
  unfold worker_wf, owes, searching. intros H [H1 H2].
  destruct (pc w); try reflexivity; try (rewrite H; reflexivity); congruence.
Qed.

Lemma owed_searching ws :
  Forall worker_wf ws -> Forall searching ws -> owed ws = Z.of_nat (length ws).
Proof.
  induction 1 as [|w ws Hw _ IH]; intros Hs; [reflexivity|].
  apply Forall_cons in Hs as [Hs1 Hs2].
  change (owed (w :: ws)) with (owes w + owed ws).
  rewrite (owes_searching w Hw Hs1), (IH Hs2). cbn [length]. lia.
Qed.

Lemma owed_lookup_le (ws : list worker) i w :
  ws !! i = Some w -> owes w <= owed ws.
Proof.
  revert i. induction ws as [|x ws IH]; intros i Hi; [discriminate|].
  change (owed (x :: ws)) with (owes x + owed ws).
  pose proof (owes_nonneg x). pose proof (owed_nonneg ws).
  destruct i as [|i]; cbn in Hi.
  - simplify_eq. lia.
  - specialize (IH i Hi). lia.
Qed.

Section RoundMore.

Variable Keccak256Hash : list byte -> Common.Hash.
Variable cfg : config.

#[local] Abbreviation wstep := (worker_step Keccak256Hash cfg).
#[local] Abbreviation rstep := (step Keccak256Hash cfg).
#[local] Abbreviation rrun := (run Keccak256Hash cfg).

Ltac wstep_inv H :=
  unfold worker_step, mineWorker_step, goto in H; cbn [pc deferred] in H;
  repeat case_match; simplify_eq;
  repeat match goal with
  | E : String.eqb _ _ = true |- _ => apply String.eqb_eq in E; subst
  | E : (_ =? _) = true |- _ => apply Z.eqb_eq in E; subst
  end.

(** A property kept by every step holds in every reachable state. *)
Lemma rrun_invariant (P : system -> Prop) :
  (forall s ev s', round_inv s -> P s -> rstep s ev = Some s' -> P s') ->
  forall evs s0 s, round_inv s0 -> P s0 -> rrun s0 evs = Some s -> P s.
Proof.
  intros Hstep. induction evs as [|ev evs IH]; intros s0 s Hinv HP H.
  - cbn in H. simplify_eq. exact HP.
  - rewrite rrun_cons in H. destruct (rstep s0 ev) as [s1|] eqn:E; [|discriminate].
    eapply IH; [| |exact H].
    + eapply rstep_inv; eauto.
    + eapply Hstep; eauto.
Qed.

(** What a step does to the list of workers. *)
Lemma rstep_workers s ev s' :
  rstep s ev = Some s' ->
  match ev with
  | EvWorker i l =>
      exists w w', workers s !! i = Some w /\ wstep w l = Some w' /\
                   workers s' = <[i := w']> (workers s) /\
                   ctx_done s' = ctx_done s /\ ticker_on s' = ticker_on s /\
                   (forall closed, l = LCtxDone closed -> closed = ctx_done s) /\
                   (is_terminal_send l = true -> coord s = CSelect) /\
                   (is_terminal_send l = false -> coord s' = coord s)
  | EvMain =>
      main_step cfg s = Some s'
  | EvTimer | EvAggTick =>
      workers s' = workers s /\ coord s' = coord s /\
      ctx_done s' = ctx_done s /\ ticker_on s' = ticker_on s /\ wg s' = wg s
  end.
Proof.
  unfold step. destruct (alive s); [|discriminate].
  destruct ev as [|i l| |]; intros H.
  - exact H.
  - unfold worker_event in H.
    destruct (workers s !! i) as [w|] eqn:Hi; [|discriminate].
    destruct (wstep w l) as [w'|] eqn:Hw; [|discriminate].
    exists w, w'. split; [reflexivity|]. split; [exact Hw|].
    destruct l; repeat case_match; simplify_eq; cbn;
      repeat split; try congruence; try done.
    intros closed' [= <-]. match goal with E : Bool.eqb _ _ = true |- _ =>
      apply Bool.eqb_prop in E; exact E end.
  - case_match; simplify_eq. cbn. auto.
  - case_match; simplify_eq. cbn. auto.
Qed.

Lemma wstep_send_result w n w' :
  wstep w (LSendResult n) = Some w' -> pc w = WSendResult n.
Proof. intros H. destruct w as [p d]. wstep_inv H; reflexivity. Qed.

Lemma wstep_send_error w e w' :
  wstep w (LSendErr e) = Some w' -> pc w = WSendErr e.
Proof. intros H. destruct w as [p d]. wstep_inv H; reflexivity. Qed.

(** *** Only justified outcomes *)

Lemma wstep_sound w l w' :
  wstep w l = Some w' -> sound_worker Keccak256Hash cfg w'.
Proof.
  intros H. destruct w as [p d]. unfold sound_worker, sound_nonce.
  wstep_inv H; cbn [pc] in *; simplify_eq;
    eauto using RandFacts.Int_two_pow_256_range.
Qed.

Lemma sound_kept s ev s' :
  round_inv s ->
  Forall (sound_worker Keccak256Hash cfg) (workers s) /\
  (forall r, outcome (coord s) = Some r -> sound_result Keccak256Hash cfg r) ->
  rstep s ev = Some s' ->
  Forall (sound_worker Keccak256Hash cfg) (workers s') /\
  (forall r, outcome (coord s') = Some r -> sound_result Keccak256Hash cfg r).
Proof.
  intros _ [Hw Ho] H.
  pose proof (rstep_outcome _ _ _ _ _ H) as Hout.
  pose proof (rstep_workers _ _ _ H) as Hws.
  destruct ev as [|i l| |]; cbn [terminal_msg] in Hout.
  - split; [|intros r Hr; rewrite Hout in Hr; auto].
    unfold main_step, set_coord in Hws.
    repeat case_match; simplify_eq; cbn [workers]; auto.
    apply Forall_app; split; [exact Hw|].
    constructor; [exact I|constructor].
  - destruct Hws as (w & w' & Hi & Hs & -> & _).
    pose proof (Forall_lookup_1 _ _ _ _ Hw Hi) as Hsw.
    split; [apply Forall_insert; [exact Hw|eapply wstep_sound; eauto]|].
    intros r Hr.
    destruct l; try (rewrite Hout in Hr; auto; fail).
    + destruct Hout as [_ Hout]. rewrite Hout in Hr. simplify_eq.
      apply wstep_send_error in Hs. unfold sound_worker in Hsw.
      rewrite Hs in Hsw. exact Hsw.
    + destruct Hout as [_ Hout]. rewrite Hout in Hr. simplify_eq.
      apply wstep_send_result in Hs. unfold sound_worker in Hsw.
      rewrite Hs in Hsw. exact Hsw.
  - destruct Hws as (-> & _). split; [exact Hw|].
    intros r Hr. rewrite Hout in Hr. auto.
  - destruct Hws as (-> & _). split; [exact Hw|].
    intros r Hr. rewrite Hout in Hr. auto.
Qed.

Lemma reachable_sound evs s :
  run Keccak256Hash cfg init evs = Some s ->
  Forall (sound_worker Keccak256Hash cfg) (workers s) /\
  (forall r, outcome (coord s) = Some r -> sound_result Keccak256Hash cfg r).
Proof.
  intros H.
  refine (rrun_invariant _ sound_kept evs init s (init_inv) _ H).
  split; [constructor|]. intros r Hr. discriminate.
Qed.


(** *** Before the first outcome *)

Lemma quiet_kept s ev s' :
  round_inv s ->
  (outcome (coord s) = None ->
   ctx_done s = false /\ Forall searching (workers s)) ->
  rstep s ev = Some s' ->
  (outcome (coord s') = None ->
   ctx_done s' = false /\ Forall searching (workers s')).
Proof.
  intros _ Hq H Hnone.
  pose proof (rstep_outcome _ _ _ _ _ H) as Hout.
  pose proof (rstep_workers _ _ _ H) as Hws.
  destruct (terminal_msg ev) as [r|] eqn:Ht.
  { destruct Hout as [_ Hout]. congruence. }
  rewrite Hnone in Hout. symmetry in Hout. destruct (Hq Hout) as [Hc Hs].
  destruct ev as [|i l| |].
  - unfold main_step, set_coord in Hws.
    destruct (coord s); cbn in Hout; try discriminate;
      repeat case_match; simplify_eq; cbn; split; auto.
    apply Forall_app; split; [exact Hs|].
    constructor; [split; discriminate|constructor].
  - destruct Hws as (w & w' & Hi & Hw & -> & -> & _ & Hpoll & _).
    split; [exact Hc|]. apply Forall_insert; [exact Hs|].
    pose proof (Forall_lookup_1 _ _ _ _ Hs Hi) as [Hn1 Hn2].
    destruct w as [p d]. cbn in Hn1, Hn2.
    destruct l; try (specialize (Hpoll _ eq_refl); subst closed; rewrite Hc in Hw);
      wstep_inv Hw; cbn in *; try discriminate; try congruence;
      split; discriminate.
  - destruct Hws as (-> & _ & -> & _). auto.
  - destruct Hws as (-> & _ & -> & _). auto.
Qed.

(** X8. Until the coordinator has taken an outcome nothing is cancelled and
    no worker has left its loop: every spawned worker is still searching,
    and the wait-group counter is the number of spawned workers. *)
Theorem all_search_until_first_outcome evs s :
  run Keccak256Hash cfg init evs = Some s -> outcome (coord s) = None ->
  ctx_done s = false /\ Forall searching (workers s) /\
  wg s = Z.of_nat (length (workers s)).
Proof.
  intros H Hnone.
  assert (outcome (coord s) = None ->
          ctx_done s = false /\ Forall searching (workers s)) as Hq.
  { refine (rrun_invariant _ quiet_kept evs init s init_inv _ H).
    intros _. split; [reflexivity|constructor]. }
  destruct (Hq Hnone) as [Hc Hs].
  destruct (rrun_inv _ _ _ _ _ init_inv H) as [Hwf Hwg _].
  split; [exact Hc|]. split; [exact Hs|].
  rewrite Hwg. apply owed_searching; assumption.
Qed.

(** *** The spawn loop *)

Lemma spawn_kept :
  cfg_workerCount cfg < 2 ^ 63 ->
  forall s ev s', round_inv s ->
  match coord s with
  | CSpawn i => i = Z.of_nat (length (workers s)) /\
                i <= Z.max 0 (cfg_workerCount cfg)
  | _ => Z.of_nat (length (workers s)) = Z.max 0 (cfg_workerCount cfg)
  end ->
  rstep s ev = Some s' ->
  match coord s' with
  | CSpawn i => i = Z.of_nat (length (workers s')) /\
                i <= Z.max 0 (cfg_workerCount cfg)
  | _ => Z.of_nat (length (workers s')) = Z.max 0 (cfg_workerCount cfg)
  end.
Proof.
  intros Hwc s ev s' _ HP H.
  pose proof (rstep_workers _ _ _ H) as Hws.
  destruct ev as [|i l| |].
  - unfold main_step, set_coord in Hws.
    destruct (coord s) eqn:Hc;
      repeat match type of Hws with
      | context [if ?b then _ else _] => destruct b eqn:?
      end; simplify_eq; cbn [coord workers]; try exact HP.
    + match goal with E : (_ <? _) = true |- _ => apply Z.ltb_lt in E end.
      destruct HP as [HP Hle].
      rewrite wrap_int_small by lia. rewrite length_app. cbn [length]. lia.
    + match goal with E : (_ <? _) = false |- _ => apply Z.ltb_ge in E end.
      lia.
  - destruct Hws as (w & w' & Hi & Hw & Hwk & _ & _ & _ & Hsel & Hsame).
    rewrite Hwk, length_insert.
    destruct (is_terminal_send l) eqn:Hl.
    + specialize (Hsel eq_refl). rewrite Hsel in HP.
      pose proof (rstep_outcome _ _ _ _ _ H) as Hout.
      destruct l; try discriminate; cbn in Hout; destruct Hout as [_ Hout];
        destruct (coord s'); cbn in Hout; try discriminate; exact HP.
    + rewrite (Hsame eq_refl). exact HP.
  - destruct Hws as (-> & -> & _). exact HP.
  - destruct Hws as (-> & -> & _). exact HP.
Qed.

(** X9. The loop at lines 166-169 starts exactly [workerCount] workers,
    none for a count of zero or less: while it runs, its counter is the
    number of workers started so far, and from the [select] on the number
    of workers is max(0, workerCount) and stays so. The flag is an [int], so
    it is below 2^63. *)
Theorem spawns_workerCount_workers evs s :
  cfg_workerCount cfg < 2 ^ 63 ->
  run Keccak256Hash cfg init evs = Some s ->
  Z.of_nat (length (workers s)) <= Z.max 0 (cfg_workerCount cfg) /\
  (forall i, coord s = CSpawn i -> i = Z.of_nat (length (workers s))) /\
  ((forall i, coord s <> CSpawn i) ->
   Z.of_nat (length (workers s)) = Z.max 0 (cfg_workerCount cfg)).
Proof.
  intros Hwc H.
  pose proof (rrun_invariant _ (spawn_kept Hwc) evs init s init_inv
                ltac:(cbn; split; [reflexivity|lia]) H) as HP.
  cbv beta in HP.
  destruct (coord s) eqn:Hc;
    first
      [ split; [lia|]; split; [intros j Hj; discriminate|intros _; exact HP]
      | destruct HP as [HP Hle]; split; [lia|]; split;
        [intros j [= <-]; exact HP|intros Hne; exfalso; exact (Hne _ eq_refl)] ].
Qed.

(** *** The wait group never underflows *)

(** X10. In every reachable state the wait-group counter is between zero
    and the number of workers started: [wg.Done()] is never called more
    often than [wg.Add(1)], so the counter never becomes negative. *)
Theorem wait_group_never_negative evs s :
  run Keccak256Hash cfg init evs = Some s ->
  0 <= wg s <= Z.of_nat (length (workers s)).
Proof.
  intros H. destruct (rrun_inv _ _ _ _ _ init_inv H) as [Hwf Hwg _].
  rewrite Hwg. split; [apply owed_nonneg|apply owed_le_length; exact Hwf].
Qed.

(** *** Cancellation and the ticker *)

Lemma signals_kept s ev s' :
  round_inv s ->
  (ctx_done s = true -> outcome (coord s) <> None) /\
  (ticker_on s = false -> exists n, outcome (coord s) = Some (Found n)) ->
  rstep s ev = Some s' ->
  (ctx_done s' = true -> outcome (coord s') <> None) /\
  (ticker_on s' = false -> exists n, outcome (coord s') = Some (Found n)).
Proof.
  intros _ [Hc Ht] H.
  pose proof (rstep_outcome _ _ _ _ _ H) as Hout.
  pose proof (rstep_workers _ _ _ H) as Hws.
  destruct ev as [|i l| |]; cbn [terminal_msg] in Hout.
  - rewrite Hout. unfold main_step, set_coord in Hws.
    destruct (coord s) eqn:E; repeat case_match; simplify_eq;
      cbn [ctx_done ticker_on outcome] in *; split; eauto; try done.
  - destruct Hws as (w & w' & _ & _ & _ & -> & -> & _).
    destruct l; try (rewrite Hout; auto; fail);
      destruct Hout as [Hn Hs]; rewrite Hs; rewrite Hn in Hc, Ht;
      (split; [done|]; intros Hoff; destruct (Ht Hoff) as [n Hn']; discriminate).
  - destruct Hws as (_ & _ & -> & -> & _). rewrite Hout. auto.
  - destruct Hws as (_ & _ & -> & -> & _). rewrite Hout. auto.
Qed.

(** X11. The cancellation signal is raised only after the coordinator has
    taken an outcome, and the ticker is stopped only on the result path: if
    the ticker is off the outcome is a found nonce, so after an error the
    ticker keeps running until the process exits. *)
Theorem cancel_and_ticker_follow_the_outcome evs s :
  run Keccak256Hash cfg init evs = Some s ->
  (ctx_done s = true -> outcome (coord s) <> None) /\
  (ticker_on s = false -> exists n, outcome (coord s) = Some (Found n)) /\
  (forall e, outcome (coord s) = Some (Failed e) -> ticker_on s = true).
Proof.
  intros H.
  destruct (rrun_invariant _ signals_kept evs init s init_inv
              ltac:(split; discriminate) H) as [Hc Ht].
  split; [exact Hc|]. split; [exact Ht|].
  intros e He. destruct (ticker_on s) eqn:E; [reflexivity|].
  destruct (Ht eq_refl) as [n Hn]. congruence.
Qed.

End RoundMore.


Example three_spawned :
  run tail_hash (mkConfig 7 252 zero_address 3) init [EvMain; EvMain; EvMain; EvMain]
  = Some {| ctx_done := false; wg := 3;
            workers := [new_worker; new_worker; new_worker];
            coord := CSelect; ticker_on := true; tick_pending := false;
            agg := mkAggregator 0 [] |}.
Proof. vm_compute. reflexivity. Qed.

Lemma all_search_until_first_outcome_witness :
  run tail_hash (mkConfig 7 252 zero_address 3) init [EvMain; EvMain; EvMain; EvMain]
  = Some {| ctx_done := false; wg := 3;
            workers := [new_worker; new_worker; new_worker];
            coord := CSelect; ticker_on := true; tick_pending := false;
            agg := mkAggregator 0 [] |} /\
  Forall searching [new_worker; new_worker; new_worker].
Proof.
  split; [exact three_spawned|].
  apply (all_search_until_first_outcome tail_hash _ _ _ three_spawned eq_refl).
Defined.

Lemma spawns_workerCount_workers_witness :
  (3 < 2 ^ 63 /\
   run tail_hash (mkConfig 7 252 zero_address 3) init [EvMain; EvMain; EvMain; EvMain]
   = Some {| ctx_done := false; wg := 3;
             workers := [new_worker; new_worker; new_worker];
             coord := CSelect; ticker_on := true; tick_pending := false;
             agg := mkAggregator 0 [] |}) /\
  Z.of_nat (length [new_worker; new_worker; new_worker]) <= Z.max 0 3.
Proof.
  split; [split; [lia|exact three_spawned]|].
  apply (spawns_workerCount_workers tail_hash (mkConfig 7 252 zero_address 3)
           _ _ ltac:(cbn; lia) three_spawned).
Defined.

Lemma wait_group_never_negative_witness :
  run tail_hash cfg_252 init miss_then_find = Some miss_then_find_end /\
  0 <= wg miss_then_find_end <= Z.of_nat (length (workers miss_then_find_end)).
Proof.
  split; [exact miss_then_find_runs|].
  apply (wait_group_never_negative tail_hash cfg_252 _ _ miss_then_find_runs).
Defined.

Lemma cancel_and_ticker_follow_the_outcome_witness :
  run tail_hash cfg_252 init miss_then_find = Some miss_then_find_end /\
  (ticker_on miss_then_find_end = false ->
   exists n, outcome (coord miss_then_find_end) = Some (Found n)).
Proof.
  split; [exact miss_then_find_runs|].
  apply (cancel_and_ticker_follow_the_outcome tail_hash cfg_252 _ _
           miss_then_find_runs).
Defined.

(** ** A sender nobody receives from *)

Section RoundStuck.

Variable Keccak256Hash : list byte -> Common.Hash.
Variable cfg : config.

#[local] Abbreviation wstep := (worker_step Keccak256Hash cfg).
#[local] Abbreviation rstep := (step Keccak256Hash cfg).
#[local] Abbreviation rrun := (run Keccak256Hash cfg).

Lemma at_terminal_send_owes w :
  worker_wf w -> at_terminal_send w -> owes w = 1.
Proof.
  unfold worker_wf, at_terminal_send, owes.
  destruct (pc w); intros H Hs; try contradiction; rewrite H; reflexivity.
Qed.

Lemma wstep_at_terminal_send w l w' :
  at_terminal_send w -> wstep w l = Some w' -> is_terminal_send l = true.
Proof.
  unfold at_terminal_send, worker_step. intros Hs H.
  destruct (pc w) eqn:Hpc; try contradiction.
  - destruct (wstep_at_send_err _ _ _ _ _ _ _ _ Hpc H) as [-> _]. reflexivity.
  - destruct (wstep_at_send_result _ _ _ _ _ _ _ _ Hpc H) as [-> _]. reflexivity.
Qed.

Lemma blocked_kept i w s ev s' :
  round_inv s ->
  outcome (coord s) <> None /\ delivered (coord s) = None /\
  workers s !! i = Some w /\ at_terminal_send w ->
  rstep s ev = Some s' ->
  outcome (coord s') <> None /\ delivered (coord s') = None /\
  workers s' !! i = Some w /\ at_terminal_send w.
Proof.
  intros [Hwf Hwg _] (Ho & Hd & Hi & Hs) H.
  pose proof (rstep_outcome _ _ _ _ _ H) as Hout.
  pose proof (rstep_workers _ _ _ _ _ H) as Hws.
  pose proof (Forall_lookup_1 _ _ _ _ Hwf Hi) as Hwfw.
  pose proof (at_terminal_send_owes w Hwfw Hs) as Hone.
  pose proof (owed_lookup_le _ _ _ Hi) as Hle.
  destruct ev as [|j l| |]; cbn [terminal_msg] in Hout.
  - rewrite Hout. split; [exact Ho|]. split; [|split; [|exact Hs]].
    + unfold main_step, set_coord in Hws.
      destruct (coord s) eqn:E;
        repeat match type of Hws with
        | context [if ?b then _ else _] => destruct b eqn:?
        end; simplify_eq; cbn [coord delivered]; try reflexivity;
        try (exfalso; apply Ho; reflexivity);
        match goal with E : (wg _ =? 0) = true |- _ => apply Z.eqb_eq in E; lia end.
    + unfold main_step, set_coord in Hws.
      destruct (coord s) eqn:E;
        repeat match type of Hws with
        | context [if ?b then _ else _] => destruct b eqn:?
        end; simplify_eq; cbn [workers]; exact Hi.
  - destruct Hws as (wj & wj' & Hj & Hw & Hwk & _ & _ & _ & Hsel & Hsame).
    assert (is_terminal_send l = false) as Hl.
    { destruct (is_terminal_send l) eqn:Hl; [|reflexivity].
      exfalso. apply Ho. rewrite (Hsel eq_refl). reflexivity. }
    assert (j <> i) as Hne.
    { intros ->. rewrite Hi in Hj. simplify_eq.
      pose proof (wstep_at_terminal_send _ _ _ Hs Hw). congruence. }
    rewrite (Hsame Hl). split; [exact Ho|]. split; [exact Hd|].
    split; [|exact Hs].
    rewrite Hwk, list_lookup_insert_ne by exact Hne. exact Hi.
  - destruct Hws as (-> & -> & _). auto.
  - destruct Hws as (-> & -> & _). auto.
Qed.

(** X12. If the coordinator has taken its outcome while some worker is at a
    send on the result or the error channel, that worker stays there for
    ever: whatever the program does from then on, the worker does not move,
    the wait-group counter does not reach zero, and the round never comes to
    its end. *)
Theorem blocked_sender_blocks_the_round evs s i w evs' s' :
  rrun init evs = Some s ->
  outcome (coord s) <> None ->
  workers s !! i = Some w -> at_terminal_send w ->
  rrun s evs' = Some s' ->
  workers s' !! i = Some w /\ 1 <= wg s' /\ delivered (coord s') = None.
Proof.
  intros Hrun Ho Hi Hs Hrun'.
  pose proof (rrun_inv _ _ _ _ _ init_inv Hrun) as Hinv.
  assert (delivered (coord s) = None) as Hd.
  { destruct Hinv as [Hwf Hwg Hov].
    destruct (delivered (coord s)) eqn:E; [|reflexivity].
    pose proof (Forall_lookup_1 _ _ _ _ Hwf Hi) as Hwfw.
    pose proof (at_terminal_send_owes w Hwfw Hs).
    pose proof (owed_lookup_le _ _ _ Hi).
    assert (wg s = 0) by (apply Hov; congruence). lia. }
  destruct (rrun_invariant Keccak256Hash cfg _ (blocked_kept i w) evs' s s'
              Hinv (conj Ho (conj Hd (conj Hi Hs))) Hrun')
    as (_ & Hd' & Hi' & _).
  split; [exact Hi'|]. split; [|exact Hd'].
  destruct (rrun_inv _ _ _ _ _ Hinv Hrun') as [Hwf' Hwg' _].
  pose proof (Forall_lookup_1 _ _ _ _ Hwf' Hi') as Hwfw.
  pose proof (at_terminal_send_owes w Hwfw Hs).
  pose proof (owed_lookup_le _ _ _ Hi'). lia.
Qed.

(** *** What the aggregator is told *)

Lemma rstep_agg s ev s' :
  rstep s ev = Some s' ->
  match agg_view ev with
  | Some (AggCount count) =>
      count = 1 /\ agg s' = agg_step (agg s) (AggCount 1)
  | Some AggTick => agg s' = agg_step (agg s) AggTick
  | None => agg s' = agg s
  end.
Proof.
  unfold step. destruct (alive s); [|discriminate].
  destruct ev as [|j l| |]; cbn [agg_view]; intros H.
  - unfold main_step, set_coord in H. repeat case_match; simplify_eq; reflexivity.
  - unfold worker_event in H.
    destruct (workers s !! j) as [w|] eqn:Hj; [|discriminate].
    destruct (wstep w l) as [w'|] eqn:Hw; [|discriminate].
    destruct l; repeat case_match; simplify_eq; cbn [agg set_worker set_coord];
      try reflexivity.
    unfold worker_step, mineWorker_step in Hw.
    repeat case_match; simplify_eq.
    match goal with E : (_ =? 1) = true |- _ => apply Z.eqb_eq in E; subst end.
    split; reflexivity.
  - case_match; simplify_eq. reflexivity.
  - case_match; simplify_eq. reflexivity.
Qed.

Lemma rrun_intervals evs : forall s0 s cur,
  rrun s0 evs = Some s ->
  totalHashCount (agg s0) = Z.of_nat cur ->
  Z.of_nat cur + Z.of_nat (length evs) < 2 ^ 63 ->
  emitted (agg s)
  = emitted (agg s0)
    ++ map (fun k => hashesPerSecond (Z.of_nat k)) (fst (intervals evs cur)) /\
  totalHashCount (agg s) = Z.of_nat (snd (intervals evs cur)).
Proof.
  induction evs as [|ev evs IH]; intros s0 s cur H Hcur Hlen.
  - cbn in H. simplify_eq. cbn. rewrite app_nil_r. auto.
  - rewrite rrun_cons in H. destruct (rstep s0 ev) as [s1|] eqn:E; [|discriminate].
    pose proof (rstep_agg _ _ _ E) as Hagg.
    cbn [length] in Hlen. cbn [intervals].
    destruct (agg_view ev) as [[|count]|].
    + destruct (IH s1 s 0%nat H) as [He Ht].
      { rewrite Hagg. reflexivity. }
      { lia. }
      cbn [fst snd map]. rewrite He, Ht, Hagg. cbn [agg_step emitted].
      rewrite Hcur, <- app_assoc. auto.
    + destruct Hagg as [-> Hagg].
      destruct (IH s1 s (S cur) H) as [He Ht].
      { rewrite Hagg. cbn [agg_step totalHashCount]. rewrite Hcur.
        rewrite wrap_int_small by lia. lia. }
      { lia. }
      rewrite He, Ht, Hagg. auto.
    + destruct (IH s1 s cur H) as [He Ht].
      { rewrite Hagg. exact Hcur. }
      { lia. }
      rewrite He, Ht, Hagg. auto.
Qed.

(** X13. The display follows the workers' reports: in a run of fewer than
    2^63 steps, the rates emitted so far are, in order, the numbers of
    hash-count messages delivered between consecutive ticks, each divided by
    1000, and the counter holds the number delivered since the last tick.
    Every message counts for one; none is lost or counted twice. *)
Theorem display_counts_every_report evs s :
  rrun init evs = Some s ->
  Z.of_nat (length evs) < 2 ^ 63 ->
  emitted (agg s)
  = map (fun k => hashesPerSecond (Z.of_nat k)) (fst (intervals evs 0)) /\
  totalHashCount (agg s) = Z.of_nat (snd (intervals evs 0)).
Proof.
  intros H Hlen.
  apply (rrun_intervals evs init s 0%nat H); [reflexivity|lia].
Qed.

End RoundStuck.

Lemma blocked_sender_blocks_the_round_witness :
  (run tail_hash (mkConfig 7 0 zero_address 2) init two_finders
     = Some second_finder_stuck /\
   outcome (coord second_finder_stuck) <> None /\
   workers second_finder_stuck !! 1%nat
     = Some (mkWorker (WSendResult 6) [DeferWgDone]) /\
   at_terminal_send (mkWorker (WSendResult 6) [DeferWgDone]) /\
   run tail_hash (mkConfig 7 0 zero_address 2) second_finder_stuck []
     = Some second_finder_stuck) /\
  delivered (coord second_finder_stuck) = None.
Proof.
  assert (run tail_hash (mkConfig 7 0 zero_address 2) init two_finders
          = Some second_finder_stuck) as H by (vm_compute; reflexivity).
  split; [split; [exact H|split; [discriminate|split;
          [reflexivity|split; [exact I|reflexivity]]]]|].
  apply (blocked_sender_blocks_the_round tail_hash (mkConfig 7 0 zero_address 2)
           two_finders second_finder_stuck 1%nat
           (mkWorker (WSendResult 6) [DeferWgDone]) [] second_finder_stuck
           H ltac:(discriminate) eq_refl I eq_refl).
Defined.

Lemma display_counts_every_report_witness :
  (run tail_hash cfg_252 init miss_then_find = Some miss_then_find_end /\
   Z.of_nat (length miss_then_find) < 2 ^ 63) /\
  totalHashCount (agg miss_then_find_end) = 1.
Proof.
  split; [split; [exact miss_then_find_runs|cbn; lia]|].
  apply (display_counts_every_report tail_hash cfg_252 miss_then_find
           miss_then_find_end miss_then_find_runs). cbn. lia.
Defined.

(** ** The whole program: set-up, round, submission *)

Lemma In_firstn_In {A} (x : A) k l : In x (firstn k l) -> In x l.
Proof.
  revert k. induction l as [|y l IH]; intros [|k] H; cbn in *; try contradiction.
  destruct H as [H|H]; [left; exact H|right; eapply IH; exact H].
Qed.

Lemma setup_calls_no_mine k n : ~ In (CallMine n) (firstn k setup_calls).
Proof.
  intros H. apply In_firstn_In in H. cbn in H.
  repeat (destruct H as [H|H]; [discriminate|]). exact H.
Qed.

Ltac setup_field H f :=
  destruct f eqn:?; cbn in H;
  [ injection H as <- <- | ].

Ltac use_fields :=
  repeat match goal with
  | E : ?f ?wo = _ |- context [?f ?wo] => rewrite E
  end.

(** The set-up stops at the first call that fails; when none fails it has
    made the eight calls in order and the round gets what the contract and
    the key gave. *)
Lemma main_setup_cases wo workerCount log res :
  main_setup wo workerCount = (log, res) ->
  match res with
  | inl msg => exists k, (1 <= k <= 8)%nat /\ log = firstn k setup_calls
  | inr cfg =>
      log = setup_calls /\
      Forall (fun c => call_error wo c = None) setup_calls /\
      w_Challenge wo = inr (cfg_challenge cfg) /\
      w_Difficulty wo = inr (cfg_difficulty cfg) /\
      w_NewTransactor wo = inr (cfg_from cfg) /\
      cfg_workerCount cfg = workerCount
  end.
Proof.
  intros H. unfold main_setup, bind, fatal_on_error, ret in H.
  setup_field H (w_Dial wo); [exists 1%nat; split; [lia|reflexivity]|].
  setup_field H (w_HexToECDSA wo); [exists 2%nat; split; [lia|reflexivity]|].
  setup_field H (w_NetworkID wo); [exists 3%nat; split; [lia|reflexivity]|].
  setup_field H (w_NewTransactor wo); [exists 4%nat; split; [lia|reflexivity]|].
  setup_field H (w_NewPoWERC20 wo); [exists 5%nat; split; [lia|reflexivity]|].
  setup_field H (w_Name wo); [exists 6%nat; split; [lia|reflexivity]|].
  setup_field H (w_Challenge wo); [exists 7%nat; split; [lia|reflexivity]|].
  setup_field H (w_Difficulty wo); [exists 8%nat; split; [lia|reflexivity]|].
  injection H as <- <-. cbn [cfg_challenge cfg_difficulty cfg_from cfg_workerCount].
  split; [reflexivity|]. split; [|auto].
  unfold setup_calls. repeat constructor; cbn [call_error]; use_fields; reflexivity.
Qed.

(** The call at which the set-up fails decides its result. *)
Lemma main_setup_fails_at wo workerCount pre c post err :
  setup_calls = pre ++ c :: post ->
  Forall (fun c' => call_error wo c' = None) pre ->
  call_error wo c = Some err ->
  main_setup wo workerCount = (pre ++ [c], inl (fatal_text c ++ err)%string).
Proof.
  intros Hsplit Hpre Hc. unfold setup_calls in Hsplit.
  do 8 (destruct pre as [|? pre];
        [ cbn in Hsplit; simplify_eq;
          repeat match goal with
          | H : Forall _ (_ :: _) |- _ => apply Forall_cons in H as [? H]
          end;
          cbn [call_error] in *; unfold failed in *;
          repeat match goal with
          | H : match ?f ?w with inl _ => _ | inr _ => _ end = _ |- _ =>
              destruct (f w) eqn:?; simplify_eq
          end;
          unfold main_setup, bind, fatal_on_error, ret; use_fields;
          reflexivity
        | cbn in Hsplit; injection Hsplit as <- Hsplit ]).
  destruct pre; discriminate.
Qed.

(** X14. A failure of any of the eight set-up calls (connection, key,
    chain id, transactor, contract binding, name, challenge, difficulty) is
    fatal at once. If the calls before [c] in the fixed order succeed in the
    world and [c] fails there with [err], the set-up has made exactly the
    calls up to [c] and ends with the text of [c] followed by [err]; the
    whole program ends so under every schedule: no worker is started, and
    [contract.Mine] is not called. *)
Theorem setup_failure_is_fatal
    (Keccak256Hash : list byte -> Common.Hash) wo workerCount pre c post err :
  setup_calls = pre ++ c :: post ->
  Forall (fun c' => call_error wo c' = None) pre ->
  call_error wo c = Some err ->
  main_setup wo workerCount = (pre ++ [c], inl (fatal_text c ++ err)%string) /\
  (forall evs,
     main_program Keccak256Hash wo workerCount evs
     = Some (pre ++ [c], inl (fatal_text c ++ err)%string)) /\
  (forall n, ~ In (CallMine n) (pre ++ [c])).
Proof.
  intros Hsplit Hpre Hc.
  pose proof (main_setup_fails_at wo workerCount _ _ _ _ Hsplit Hpre Hc) as H.
  split; [exact H|]. split.
  - intros evs. unfold main_program. rewrite H. reflexivity.
  - intros n Hin.
    assert (In (CallMine n) setup_calls) as Hin'.
    { rewrite Hsplit. apply in_app_or in Hin as [Hin|[Hin|[]]].
      - apply in_or_app. left. exact Hin.
      - apply in_or_app. right. left. exact Hin. }
    exact (setup_calls_no_mine 8 n Hin').
Qed.

Lemma setup_failure_is_fatal_witness :
  (setup_calls = [] ++ CallDial :: skipn 1 setup_calls /\
   call_error no_node_world CallDial = Some "connection refused"%string) /\
  main_program tail_hash no_node_world 10 miss_then_find
  = Some ([CallDial],
          inl "Failed to connect to the Ethereum client: connection refused"%string).
Proof.
  split; [split; reflexivity|].
  apply (setup_failure_is_fatal tail_hash no_node_world 10 [] CallDial
           (skipn 1 setup_calls) "connection refused"%string eq_refl
           (List.Forall_nil _) eq_refl).
Defined.

Example difficulty_failure_is_fatal :
  main_program tail_hash no_difficulty_world 10 miss_then_find
  = Some (setup_calls, inl "Failed to get difficulty: execution reverted"%string).
Proof. reflexivity. Qed.

(** X15. Whatever the outside world answers and whatever the schedule: if
    the program calls [contract.Mine] with a nonce, then each of the eight
    set-up calls has succeeded, the nonce lies in [0, 2^256) and its digest
    for the contract's challenge and the sender's address is below the
    target of the contract's difficulty; [Mine] is called at most once; and
    the program ends without a fatal error only when all eight set-up calls,
    that one submission and the wait for its receipt succeeded. *)
Theorem only_justified_nonces_are_submitted
    (Keccak256Hash : list byte -> Common.Hash) wo workerCount evs log res :
  main_program Keccak256Hash wo workerCount evs = Some (log, res) ->
  (forall n, In (CallMine n) log ->
     Forall (fun c => call_error wo c = None) setup_calls /\
     exists c d from,
       w_Challenge wo = inr c /\ w_Difficulty wo = inr d /\
       w_NewTransactor wo = inr from /\
       0 <= n < 2 ^ 256 /\
       mineWorker_accepts Keccak256Hash c from (main_target d) n = true /\
       (log = setup_calls ++ [CallMine n] \/
        log = setup_calls ++ [CallMine n; CallWaitMined])) /\
  (length (List.filter is_mine log) <= 1)%nat /\
  (res = inr tt ->
   exists n, log = setup_calls ++ [CallMine n; CallWaitMined] /\
             Forall (fun c => call_error wo c = None) log).
Proof.
  unfold main_program.
  destruct (main_setup wo workerCount) as [log0 [msg|cfg]] eqn:Hs.
  - intros [= <- <-].
    pose proof (main_setup_cases _ _ _ _ Hs) as (k & Hk & ->).
    split; [|split].
    + intros n Hin. exfalso. exact (setup_calls_no_mine _ _ Hin).
    + destruct k as [|[|[|[|[|[|[|[|k]]]]]]]]; cbn; try lia.
      assert (k = 0%nat) as -> by lia. cbn. lia.
    + discriminate.
  - pose proof (main_setup_cases _ _ _ _ Hs) as (-> & Hall & Hc & Hd & Hf & _).
    destruct (run Keccak256Hash cfg init evs) as [s|] eqn:Hrun; [|discriminate].
    destruct (delivered (coord s)) as [r|] eqn:Hdel; [|discriminate].
    intros [= <- <-].
    destruct (reachable_sound Keccak256Hash cfg evs s Hrun) as [_ Hsound].
    specialize (Hsound r (delivered_outcome _ _ Hdel)).
    destruct r as [m|e]; unfold main_finish, bind, fatal_on_error, ret.
    + destruct Hsound as [Hrange Hacc].
      destruct (w_Mine wo m) as [err|[]] eqn:Hmine;
        [|destruct (w_WaitMined wo) as [err|[]] eqn:Hwait];
        cbn [fst snd]; (split; [|split]);
        try (cbn; lia); try discriminate.
      all: try (intros n Hin; split; [exact Hall|];
                cbn in Hin;
                repeat (destruct Hin as [Hin|Hin]; try discriminate);
                try contradiction; simplify_eq;
                exists (cfg_challenge cfg), (cfg_difficulty cfg), (cfg_from cfg);
                repeat split; auto; lia).
      intros _. exists m. split; [reflexivity|].
      apply (Forall_app _ setup_calls [CallMine m; CallWaitMined]).
      split; [exact Hall|].
      repeat constructor; cbn [call_error]; use_fields; reflexivity.
    + cbn [fst snd]. split; [|split].
      * intros n Hin. exfalso. exact (setup_calls_no_mine 8 n Hin).
      * cbn. lia.
      * discriminate.
Qed.

Example fair_program :
  main_program tail_hash fair_world 2 miss_then_find
  = Some (setup_calls ++ [CallMine 5; CallWaitMined], inr tt).
Proof. vm_compute. reflexivity. Qed.

Lemma only_justified_nonces_are_submitted_witness :
  main_program tail_hash fair_world 2 miss_then_find
    = Some (setup_calls ++ [CallMine 5; CallWaitMined], inr tt) /\
  Forall (fun c => call_error fair_world c = None) setup_calls /\
  (length (List.filter is_mine (setup_calls ++ [CallMine 5; CallWaitMined])) <= 1)%nat.
Proof.
  split; [exact fair_program|].
  destruct (only_justified_nonces_are_submitted tail_hash fair_world 2
              miss_then_find _ _ fair_program) as (Hmine & Hone & _).
  split; [|exact Hone].
  apply (Hmine 5). apply in_or_app. right. left. reflexivity.
Defined.

(** ** After the cancellation *)

Lemma events_of_cons i f ev evs :
  events_of i f (ev :: evs) = (Nat.b2n (by_worker i f ev) + events_of i f evs)%nat.
Proof. unfold events_of. cbn [List.filter]. destruct (by_worker i f ev); reflexivity. Qed.

Section RoundCancel.

Variable Keccak256Hash : list byte -> Common.Hash.
Variable cfg : config.

#[local] Abbreviation wstep := (worker_step Keccak256Hash cfg).
#[local] Abbreviation rstep := (step Keccak256Hash cfg).
#[local] Abbreviation rrun := (run Keccak256Hash cfg).

(** With the signal raised a worker has at most the rest of its current
    iteration to run. *)
Lemma wstep_left w l w' :
  wstep w l = Some w' -> (forall closed, l = LCtxDone closed -> closed = true) ->
  (Nat.b2n (is_draw l) + draws_left w' <= draws_left w)%nat /\
  (Nat.b2n (is_count_send l) + counts_left w' <= counts_left w)%nat.
Proof.
  intros H Hpoll. destruct w as [p d]. unfold draws_left, counts_left.
  destruct l; try (specialize (Hpoll _ eq_refl); subst closed);
    unfold worker_step, mineWorker_step, goto in H; cbn [pc deferred] in H;
    repeat case_match; simplify_eq; cbn; lia.
Qed.

Lemma cancelled_step i s ev s' :
  ctx_done s = true -> outcome (coord s) <> None ->
  rstep s ev = Some s' ->
  (ctx_done s' = true /\ outcome (coord s') <> None) /\
  (Nat.b2n (by_worker i is_draw ev) + left_at draws_left (workers s') i
   <= left_at draws_left (workers s) i)%nat /\
  (Nat.b2n (by_worker i is_count_send ev) + left_at counts_left (workers s') i
   <= left_at counts_left (workers s) i)%nat.
Proof.
  intros Hc Ho H.
  pose proof (ctx_done_stable _ _ _ _ _ H Hc) as Hc'.
  pose proof (rstep_outcome _ _ _ _ _ H) as Hout.
  pose proof (rstep_workers _ _ _ _ _ H) as Hws.
  split.
  { split; [exact Hc'|].
    destruct (terminal_msg ev); [destruct Hout as [_ ->]; discriminate|].
    rewrite Hout. exact Ho. }
  destruct ev as [|j l| |]; cbn [by_worker Nat.b2n].
  - unfold main_step, set_coord in Hws.
    destruct (coord s) eqn:E;
      repeat match type of Hws with
      | context [if ?b then _ else _] => destruct b eqn:?
      end; simplify_eq; cbn [workers]; try lia.
    all: exfalso; apply Ho; reflexivity.
  - destruct Hws as (w & w' & Hj & Hw & -> & _ & _ & Hpoll & _).
    rewrite Hc in Hpoll.
    destruct (wstep_left _ _ _ Hw Hpoll) as [Hd Hn].
    destruct (Nat.eqb_spec i j) as [->|Hne]; cbn [andb]; unfold left_at.
    + rewrite list_lookup_insert_eq by (eapply lookup_lt_Some; exact Hj).
      rewrite Hj. auto.
    + rewrite list_lookup_insert_ne by congruence. cbn. lia.
  - destruct Hws as (-> & _). lia.
  - destruct Hws as (-> & _). lia.
Qed.

Lemma cancelled_run i evs : forall s s',
  ctx_done s = true -> outcome (coord s) <> None ->
  rrun s evs = Some s' ->
  (events_of i is_draw evs + left_at draws_left (workers s') i
   <= left_at draws_left (workers s) i)%nat /\
  (events_of i is_count_send evs + left_at counts_left (workers s') i
   <= left_at counts_left (workers s) i)%nat.
Proof.
  induction evs as [|ev evs IH]; intros s s' Hc Ho H.
  - cbn in H. simplify_eq. cbn. lia.
  - rewrite rrun_cons in H. destruct (rstep s ev) as [s1|] eqn:E; [|discriminate].
    destruct (cancelled_step i _ _ _ Hc Ho E) as ([Hc1 Ho1] & Hd & Hn).
    destruct (IH _ _ Hc1 Ho1 H) as [Hd' Hn'].
    rewrite !events_of_cons. lia.
Qed.

Lemma left_at_le_1 ws i :
  (left_at draws_left ws i <= 1)%nat /\ (left_at counts_left ws i <= 1)%nat.
Proof.
  unfold left_at, draws_left, counts_left.
  destruct (ws !! i) as [w|]; [destruct (pc w)|]; lia.
Qed.

(** X16. Once [cancel()] has run, every worker has at most the rest of its
    current loop iteration to go: in whatever the program does from then
    on, each worker draws at most one more nonce and delivers at most one
    more hash-count message. *)
Theorem cancellation_bounds_the_work evs s evs' s' i :
  rrun init evs = Some s -> ctx_done s = true ->
  rrun s evs' = Some s' ->
  (events_of i is_draw evs' <= 1)%nat /\
  (events_of i is_count_send evs' <= 1)%nat.
Proof.
  intros Hrun Hc Hrun'.
  destruct (rrun_invariant Keccak256Hash cfg _ (signals_kept Keccak256Hash cfg)
              evs init s (init_inv) ltac:(split; discriminate) Hrun) as [Ho _].
  destruct (cancelled_run i evs' s s' Hc (Ho Hc) Hrun') as [Hd Hn].
  destruct (left_at_le_1 (workers s) i). lia.
Qed.

End RoundCancel.

(** A worker that was in the middle of an attempt when the round was
    cancelled: it finishes the attempt, reports it, and returns. *)
Example late_report_runs :
  run tail_hash cfg_252
    {| ctx_done := true; wg := 1;
       workers := [mkWorker WReturn []; mkWorker WDraw [DeferWgDone]];
       coord := CResWait 5; ticker_on := false; tick_pending := false;
       agg := mkAggregator 0 [] |}
    [EvWorker 1 (LDraw (reader_of 500)); EvWorker 1 (LSendCount 1);
     EvWorker 1 (LCtxDone true)]
  = Some {| ctx_done := true; wg := 1;
            workers := [mkWorker WReturn []; mkWorker WReturn [DeferWgDone]];
            coord := CResWait 5; ticker_on := false; tick_pending := false;
            agg := mkAggregator 1 [] |}.
Proof. vm_compute. reflexivity. Qed.

Example late_report_reached :
  run tail_hash cfg_252 init
    [EvMain; EvMain; EvMain; EvWorker 0 LDefer; EvWorker 1 LDefer;
     EvWorker 0 (LCtxDone false); EvWorker 1 (LCtxDone false);
     EvWorker 0 (LDraw (reader_of 5)); EvWorker 0 (LSendResult 5);
     EvMain; EvMain; EvWorker 0 LWgDone]
  = Some {| ctx_done := true; wg := 1;
            workers := [mkWorker WReturn []; mkWorker WDraw [DeferWgDone]];
            coord := CResWait 5; ticker_on := false; tick_pending := false;
            agg := mkAggregator 0 [] |}.
Proof. vm_compute. reflexivity. Qed.

Lemma cancellation_bounds_the_work_witness :
  (events_of 1 is_draw
     [EvWorker 1 (LDraw (reader_of 500)); EvWorker 1 (LSendCount 1);
      EvWorker 1 (LCtxDone true)] <= 1)%nat /\
  (events_of 1 is_count_send
     [EvWorker 1 (LDraw (reader_of 500)); EvWorker 1 (LSendCount 1);
      EvWorker 1 (LCtxDone true)] <= 1)%nat.
Proof.
  exact (cancellation_bounds_the_work tail_hash cfg_252 _ _ _ _ 1%nat
           late_report_reached eq_refl late_report_runs).
Defined.
